(** * Shannon-Fano coding (package [shannon], file [shannon.go])

    A shallow embedding of the Go package and the verification of its
    table builder, encoder and decoder.

    Modelling conventions.
    - a byte is a [Z] between 0 and 255 and a Go [string] is the list of
      its bytes, so [len(s)] is the length of the list; [rune] (an [int32])
      is a [Z].  [for _, r := range s] visits the runes [range_runes s], decoded
      as package [utf8] decodes them (an invalid byte gives U+FFFD), and
      [b.WriteRune(r)] appends the bytes [encode_rune r] (U+FFFD for an [r]
      that is no code point).  [Encode] is the function of the sequence of
      runes that the [range] clause yields: the call [t.Encode(s)] of the
      program is [Encode t (range_runes s)].  [Decode] returns the bytes of the
      buffer.
    - [float64] is the kernel's binary64 [float]; [math.Abs] is [abs], the
      comparisons [<] and [>] are [ltb].
    - [uint32] is a [Z] with the wrap-around written out ([wrap32], [shl32],
      [shr32]); the conversion [uint(x)] of a (possibly negative) [int] is
      [to_uint].
    - [int] values (bit counts, indices) are [Z] or [nat]: every [int] of the
      program is bounded by the number of table entries or by the number of
      bits written, so the 64-bit wrap-around is never reached.
    - [map[rune]T] is [gmap Z T].  Go iterates a map in an unspecified order
      and [sort.Slice] is not stable; the model iterates in the order of
      [map_to_list] and sorts stably.  The results on built tables are
      proved for every list of fresh codes first (Section [AnyOrder]), and
      the scan of the decoder is shown not to depend on the order for the
      tables it is used on ([scan_any_order]).
    - an index out of range (a Go run-time panic) is [ExitPanic] for the
      loop of the decoder and [None] for [Decode]. *)

From Stdlib Require Import ZArith Lia List Bool.
From Stdlib Require Import Floats.PrimFloat Numbers.Cyclic.Int63.Uint63.
From stdpp Require Import gmap list.

Local Open Scope Z_scope.

(** * Part I: definitions *)

(* ===================================================================== *)
(** ** Machine arithmetic *)
(* ===================================================================== *)

(** Reduction of a mathematical integer to a [uint32]. *)
Definition wrap32 (x : Z) : Z := x mod 2 ^ 32.

(** [uint(x)] for an [int] x on a 64-bit target. *)
Definition to_uint (x : Z) : Z := x mod 2 ^ 64.

(** [b << k] on a [uint32] with an unsigned count: a count of 32 or more
    gives 0. *)
Definition shl32 (b k : Z) : Z :=
  if k <? 32 then wrap32 (Z.shiftl b k) else 0.

(** [b >> k] on a [uint32] with an unsigned count. *)
Definition shr32 (b k : Z) : Z :=
  if k <? 32 then Z.shiftr b k else 0.

(** [float64(n)] for a non-negative [int]. *)
Definition float64 (n : Z) : float := PrimFloat.of_uint63 (Uint63.of_Z n).

(* ===================================================================== *)
(** ** Strings, runes and UTF-8 *)
(* ===================================================================== *)

(** The package reads its strings with [range] and writes them with
    [bytes.Buffer.WriteRune]; both belong to Go and its standard library
    (packages [unicode/utf8] and [bytes]) and are written here after the
    functions of the library. *)

(** [utf8.RuneError], U+FFFD. *)
Definition RuneError : Z := 0xFFFD.

(** [lo <= b && b <= hi] *)
Definition between (lo hi b : Z) : bool := (lo <=? b) && (b <=? hi).

(** The table [first] of package [utf8]: the number of bytes of the
    encoding that starts with the byte [s0]; 0 for a byte that starts none
    (0x80 to 0xC1 and 0xF5 to 0xFF). *)
Definition first_size (s0 : Z) : nat :=
  if between 0 0x7F s0 then 1
  else if between 0xC2 0xDF s0 then 2
  else if between 0xE0 0xEF s0 then 3
  else if between 0xF0 0xF4 s0 then 4
  else 0.

(** The table [acceptRanges]: the values accepted for the second byte
    after the first byte [s0]. *)
Definition accept (s0 : Z) : Z * Z :=
  if s0 =? 0xE0 then (0xA0, 0xBF)
  else if s0 =? 0xED then (0x80, 0x9F)
  else if s0 =? 0xF0 then (0x90, 0xBF)
  else if s0 =? 0xF4 then (0x80, 0x8F)
  else (0x80, 0xBF).

(** [utf8.DecodeRuneInString], which is also how [range] decodes: the
    first rune of a string and its width in bytes; [(RuneError, 1)] when
    the string does not start with a valid encoding, [(RuneError, 0)] for
    the empty string. *)
Definition decode_rune (s : list Z) : Z * nat :=
  match s with
  | [] => (RuneError, 0%nat)
  | s0 :: rest =>
      match first_size s0, rest with
      | 1%nat, _ => (s0, 1%nat)
      | 2%nat, s1 :: _ =>
          if between (accept s0).1 (accept s0).2 s1
          then (Z.lor (Z.shiftl (Z.land s0 0x1F) 6) (Z.land s1 0x3F), 2%nat)
          else (RuneError, 1%nat)
      | 3%nat, s1 :: s2 :: _ =>
          if between (accept s0).1 (accept s0).2 s1 && between 0x80 0xBF s2
          then (Z.lor (Z.lor (Z.shiftl (Z.land s0 0x0F) 12)
                             (Z.shiftl (Z.land s1 0x3F) 6))
                      (Z.land s2 0x3F), 3%nat)
          else (RuneError, 1%nat)
      | 4%nat, s1 :: s2 :: s3 :: _ =>
          if between (accept s0).1 (accept s0).2 s1 && between 0x80 0xBF s2
             && between 0x80 0xBF s3
          then (Z.lor (Z.lor (Z.lor (Z.shiftl (Z.land s0 0x07) 18)
                                    (Z.shiftl (Z.land s1 0x3F) 12))
                             (Z.shiftl (Z.land s2 0x3F) 6))
                      (Z.land s3 0x3F), 4%nat)
          else (RuneError, 1%nat)
      | _, _ => (RuneError, 1%nat)
      end
  end.

(** [for _, r := range s]: the runes the loop visits.  Every step takes
    at least one byte, so [len(s)] steps suffice. *)
Fixpoint range_fuel (fuel : nat) (s : list Z) : list Z :=
  match fuel, s with
  | S fuel', _ :: _ =>
      (decode_rune s).1 :: range_fuel fuel' (drop (decode_rune s).2 s)
  | _, _ => []
  end.

Definition range_runes (s : list Z) : list Z := range_fuel (length s) s.

(** The conversion [byte(x)]. *)
Definition byte (x : Z) : Z := Z.land x 0xFF.

(** [utf8.AppendRune], which [bytes.Buffer.WriteRune] calls: the bytes
    written for the rune [r]; a negative [r], a surrogate or an [r] above
    U+10FFFF is written as U+FFFD. *)
Definition encode3 (r : Z) : list Z :=
  [Z.lor 0xE0 (byte (Z.shiftr r 12));
   Z.lor 0x80 (Z.land (byte (Z.shiftr r 6)) 0x3F);
   Z.lor 0x80 (Z.land (byte r) 0x3F)].

Definition encode_rune (r : Z) : list Z :=
  if between 0 0x7F r then [byte r]
  else if between 0 0x7FF r then
    [Z.lor 0xC0 (byte (Z.shiftr r 6)); Z.lor 0x80 (Z.land (byte r) 0x3F)]
  else if negb (between 0 0x10FFFF r) || between 0xD800 0xDFFF r then encode3 RuneError
  else if r <=? 0xFFFF then encode3 r
  else
    [Z.lor 0xF0 (byte (Z.shiftr r 18));
     Z.lor 0x80 (Z.land (byte (Z.shiftr r 12)) 0x3F);
     Z.lor 0x80 (Z.land (byte (Z.shiftr r 6)) 0x3F);
     Z.lor 0x80 (Z.land (byte r) 0x3F)].

(** The contents of a buffer after [WriteRune] of each rune of [rs]. *)
Definition string_of_runes (rs : list Z) : list Z := concat (encode_rune <$> rs).

(** [utf8.ValidString]: no step of the [range] loop meets an invalid
    byte, i.e. none yields [(RuneError, 1)]. *)
Definition rune_ok (s : list Z) : bool :=
  negb (((decode_rune s).1 =? RuneError) && ((decode_rune s).2 =? 1)%nat).

Fixpoint valid_fuel (fuel : nat) (s : list Z) : bool :=
  match fuel, s with
  | _, [] => true
  | O, _ :: _ => false
  | S fuel', _ :: _ => rune_ok s && valid_fuel fuel' (drop (decode_rune s).2 s)
  end.

Definition ValidString (s : list Z) : bool := valid_fuel (length s) s.

(* ===================================================================== *)
(** ** Data model *)
(* ===================================================================== *)

(** [type Code struct { Char rune; Prob float64; Bits uint32; Size int }] *)
Record Code : Type := mkCode {
  Char : Z;
  Prob : float;
  Bits : Z;
  Size : Z
}.

(** [type Table map[rune]Code] *)
Abbreviation Table := (gmap Z Code).

(** The errors of the package, named as the specification names them; the
    comment gives the message of the Go [error]. *)
Inductive error : Type :=
  | EmptyTable                (* "empty shannon-fano table" *)
  | UnknownSymbol (r : Z)     (* "rune '%c' not found in shannon-fano table" *)
  | InvalidVector             (* "invalid bit vector" *)
  | NoMatchingCode            (* "invalid bit vector or missing shannon code" *)
  | TrailingBits.             (* "encoded bits remaining" *)

Inductive result (A : Type) : Type :=
  | Ok (a : A)
  | Err (e : error).
Arguments Ok {A} a.
Arguments Err {A} e.

(* ===================================================================== *)
(** ** BuildTable *)
(* ===================================================================== *)

(** [sort.Slice(codes, func(a, b) { return codes[a].Prob > codes[b].Prob })].
    The model is the stable insertion sort (the algorithm Go runs on short
    slices); [less c d] is the comparison function. *)
Definition less (c d : Code) : bool := PrimFloat.ltb (Prob d) (Prob c).

Fixpoint insert_code (c : Code) (l : list Code) : list Code :=
  match l with
  | [] => [c]
  | d :: l' => if less d c then d :: insert_code c l' else c :: d :: l'
  end.

Definition sort_codes (l : list Code) : list Code := foldr insert_code [] l.

(** The sum [prob] of the probabilities of a slice (lines 72-75). *)
Definition total_prob (codes : list Code) : float :=
  foldl (fun acc code => PrimFloat.add acc (Prob code)) 0%float codes.

(** The pivot loop (lines 82-91): [p], [left] and [best] are the loop's
    variables, [prob] the total.  The loop runs at most [len(codes)] times. *)
Fixpoint pivot_loop (fuel : nat) (codes : list Code) (prob : float)
    (p : nat) (left best : float) : nat :=
  match fuel with
  | O => p
  | S fuel' =>
      if (p <? length codes - 1)%nat then
        let diff := PrimFloat.abs (PrimFloat.sub (PrimFloat.sub prob left) left) in
        if PrimFloat.ltb diff best then
          match codes !! p with
          | Some code =>
              pivot_loop fuel' codes prob (S p) (PrimFloat.add left (Prob code)) diff
          | None => p
          end
        else p
      else p
  end.

(** The value of [p] after the loop (lines 71-91), for [len(codes) >= 2]. *)
Definition pivot (codes : list Code) : nat :=
  match codes with
  | [] => 0%nat
  | code0 :: _ =>
      pivot_loop (length codes) codes (total_prob codes) 1 (Prob code0) 1%float
  end.

(** The body of the update loop (lines 95-100) for one code: shift, count,
    and set the low bit on the right half. *)
Definition assign_bit (right : bool) (code : Code) : Code :=
  let bits := shl32 (Bits code) 1 in
  {| Char := Char code;
     Prob := Prob code;
     Bits := if right then Z.lor bits 1 else bits;
     Size := Size code + 1 |}.

(** [divide] (lines 64-106) as a function from the slice to its final
    contents.  The recursion is on sub-slices that are strictly shorter, so
    [len(codes)] levels suffice. *)
Fixpoint divide_fuel (fuel : nat) (codes : list Code) : list Code :=
  match fuel with
  | O => codes
  | S fuel' =>
      if (length codes <? 2)%nat then codes
      else
        let p := pivot codes in
        let codes' := imap (fun i code => assign_bit (bool_decide (p ≤ i)%nat) code) codes in
        divide_fuel fuel' (take p codes') ++ divide_fuel fuel' (drop p codes')
  end.

Definition divide (codes : list Code) : list Code :=
  divide_fuel (length codes) codes.

(** Lines 48-56: one fresh code per entry of the map. *)
Definition new_codes (freq : gmap Z float) : list Code :=
  (fun rp => mkCode rp.1 rp.2 0 0) <$> map_to_list freq.

(** Lines 112-117: the table of a list of codes. *)
Definition make_table (codes : list Code) : Table :=
  foldl (fun table code => <[Char code := code]> table) ∅ codes.

Definition BuildTable (freq : gmap Z float) : Table :=
  make_table (divide (sort_codes (new_codes freq))).

(** [BuildTableFromString]: the frequency table of the runes that the
    [range] clause yields, then the probabilities; [len(s)] counts the
    bytes of the string. *)
Definition count_runes (rs : list Z) : gmap Z Z :=
  foldl (fun freq r => <[r := default 0 (freq !! r) + 1]> freq) ∅ rs.

Definition BuildTableFromString (s : list Z) : Table :=
  let freq := count_runes (range_runes s) in
  let prob :=
    (fun n => PrimFloat.div (float64 n) (float64 (Z.of_nat (length s)))) <$> freq in
  BuildTable prob.

(** [BuildTableFromOrderedRunes]. *)
Definition BuildTableFromOrderedRunes (runes : list Z) : Table :=
  let n := Z.of_nat (length runes) in
  let m := float64 (Z.quot (n * (n - 1)) 2 + n) in
  let prob :=
    foldl (fun prob ir =>
             <[ir.2 := PrimFloat.add (default 0%float (prob !! ir.2))
                         (PrimFloat.div (float64 (n - Z.of_nat ir.1)) m)]> prob)
          (∅ : gmap Z float) (imap (fun i r => (i, r)) runes) in
  BuildTable prob.

(* ===================================================================== *)
(** ** Encode *)
(* ===================================================================== *)

(** [bitVec[len(bitVec)-1] |= x] *)
Definition or_last (bitVec : list Z) (x : Z) : list Z :=
  alter (fun w => Z.lor w x) (length bitVec - 1)%nat bitVec.

(** The body of the encoding loop for a code that was found (lines 176-189). *)
Definition encode_step (code : Code) (bitVec : list Z) (size : Z) : list Z * Z :=
  let n := Z.land size 0x1F in
  if n + Size code <? 0x20 then
    (or_last bitVec (shl32 (Bits code) (to_uint (0x20 - n - Size code))),
     size + Size code)
  else
    let n := Size code - (0x20 - n) in
    (or_last bitVec (shr32 (Bits code) (to_uint n))
       ++ [shl32 (Bits code) (to_uint (0x20 - n))],
     size + Size code).

Fixpoint encode_loop (t : Table) (s : list Z) (bitVec : list Z) (size : Z)
    : result (list Z * Z) :=
  match s with
  | [] => Ok (bitVec, size)
  | r :: s' =>
      match t !! r with
      | None => Err (UnknownSymbol r)
      | Some code =>
          let '(bitVec', size') := encode_step code bitVec size in
          encode_loop t s' bitVec' size'
      end
  end.

(** [Encode] as a function of the runes [s] that [range] yields for its
    string argument: the call [t.Encode(str)] is [Encode t (range_runes str)]. *)
Definition Encode (t : Table) (s : list Z) : result (list Z * Z) :=
  if decide (size t = 0%nat) then Err EmptyTable
  else encode_loop t s [0] 0.

(* ===================================================================== *)
(** ** Decode *)
(* ===================================================================== *)

(** The inner loop (lines 226-237) over the entries in the order [order]:
    the first entry whose size and bits are the ones accumulated. *)
Definition scan (order : list (Z * Code)) (n bits : Z) : option Z :=
  fst <$> find (fun rc => (Size rc.2 =? n) && (Bits rc.2 =? bits)) order.

(** [for r, code := range t]: the model scans in the order of
    [map_to_list]. *)
Definition find_code (t : Table) (n bits : Z) : option Z :=
  scan (map_to_list t) n bits.

(** How the loop of lines 212-238 is left, with the contents of the buffer
    [b] (its bytes) at that point. *)
Inductive loop_exit : Type :=
  | ExitDone (b : list Z) (n : Z)   (* [i < size] is false: on to line 240 *)
  | ExitNoMatch (b : list Z)        (* [n > 32]: the return of line 217 *)
  | ExitPanic.                      (* [bitVec[0]] on an empty slice *)

(** The outer loop (lines 212-238).  It runs at most [size] times. *)
Fixpoint decode_loop (fuel : nat) (t : Table) (size i v : Z) (bitVec : list Z)
    (bits n : Z) (b : list Z) : loop_exit :=
  match fuel with
  | O => ExitDone b n
  | S fuel' =>
      if i <? size then
        let bits := Z.lor (shl32 bits 1) (Z.shiftr v 31) in
        let v := shl32 v 1 in
        let n := n + 1 in
        if 32 <? n then ExitNoMatch b
        else
          let i := i + 1 in
          let popped :=
            if Z.land i 0x1F =? 0 then
              match bitVec with
              | [] => None
              | w :: rest => Some (w, rest)
              end
            else Some (v, bitVec) in
          match popped with
          | None => ExitPanic
          | Some (v, bitVec) =>
              match find_code t n bits with
              | Some r => decode_loop fuel' t size i v bitVec 0 0 (b ++ encode_rune r)
              | None => decode_loop fuel' t size i v bitVec bits n b
              end
          end
      else ExitDone b n
  end.

(** The bytes written to the buffer when the loop is left. *)
Definition decoded_so_far (e : loop_exit) : list Z :=
  match e with
  | ExitDone b _ => b
  | ExitNoMatch b => b
  | ExitPanic => []
  end.

(** The values returned for each way of leaving the loop (lines 217 and
    241-245); [None] is a panic. *)
Definition decode_return (e : loop_exit) : option (list Z * option error) :=
  match e with
  | ExitDone b n => if n =? 0 then Some (b, None) else Some (b, Some TrailingBits)
  | ExitNoMatch _ => Some ([], Some NoMatchingCode)
  | ExitPanic => None
  end.

(** The run of the loop from the first word on (lines 205-238). *)
Definition decode_run (t : Table) (bitVec : list Z) (size : Z) : loop_exit :=
  match bitVec with
  | [] => ExitPanic
  | v :: rest => decode_loop (Z.to_nat size) t size 0 v rest 0 0 []
  end.

Definition Decode (t : Table) (bitVec : list Z) (size : Z)
    : option (list Z * option error) :=
  if Z.of_nat (length bitVec) <=? Z.quot size 32 then Some ([], Some InvalidVector)
  else decode_return (decode_run t bitVec size).

(* ===================================================================== *)
(** ** The greedy scan for the pivot *)
(* ===================================================================== *)

(** The scan described in words: over the probabilities that follow the
    current position, with the total, the sum on the left, the best
    difference so far (if any) and the position.  The scan may advance only
    while a later position remains, so that [1 <= p < length].  It is
    parametrised by how the difference is computed from the total and the
    left sum. *)
Section Scan.
Variable dist : float -> float -> float.

Definition better (diff : float) (best : option float) : bool :=
  match best with
  | None => true
  | Some b => PrimFloat.ltb diff b
  end.

Fixpoint greedy_scan (rest : list float) (total left : float)
    (best : option float) (p : nat) {struct rest} : nat :=
  match rest with
  | [] => p
  | q :: rest' =>
      match rest' with
      | [] => p
      | _ :: _ =>
          let diff := dist total left in
          if better diff best
          then greedy_scan rest' total (PrimFloat.add left q) (Some diff) (S p)
          else p
      end
  end.

Definition greedy_pivot (best0 : option float) (probs : list float) : nat :=
  match probs with
  | [] => 0%nat
  | p0 :: rest =>
      greedy_scan rest (foldl PrimFloat.add 0%float probs) p0 best0 1
  end.
End Scan.

(** The scan as the specification words it: [diff = |total - 2*left|], and
    no difference has been seen before the first step. *)
Definition spec_dist (total left : float) : float :=
  PrimFloat.abs (PrimFloat.sub total (PrimFloat.mul 2%float left)).

Definition spec_pivot (probs : list float) : nat :=
  greedy_pivot spec_dist None probs.

(** The scan with the difference and the initial bound of the code:
    [diff = |(total - left) - left|] and [best = 1.0] before the first step. *)
Definition code_dist (total left : float) : float :=
  PrimFloat.abs (PrimFloat.sub (PrimFloat.sub total left) left).

Definition bounded_pivot (probs : list float) : nat :=
  greedy_pivot code_dist (Some 1%float) probs.

(* ===================================================================== *)
(** ** The packing rule of the encoder, in words *)
(* ===================================================================== *)

(** The rule in the words of the specification: with [n] the bits used in
    the last word and [remaining = 32 - n], a code of length
    [L <= remaining] is shifted left by [remaining - L] and ORed into the
    last word; a longer code has its high [remaining] bits ORed into the
    last word and its low [L - remaining] bits put at the top of a new
    word.  [fits] decides between the two cases. *)
Definition pack (fits : Z -> Z -> bool) (code : Code) (bitVec : list Z)
    (total_bits : Z) : list Z :=
  let n := total_bits mod 32 in
  let remaining := 32 - n in
  let L := Size code in
  if fits L remaining
  then or_last bitVec (wrap32 (Z.shiftl (Bits code) (remaining - L)))
  else or_last bitVec (Z.shiftr (Bits code) (L - remaining))
         ++ [wrap32 (Z.shiftl (Bits code) (32 - (L - remaining)))].

(** As stated: the first case applies when [L <= remaining]. *)
Definition spec_pack := pack Z.leb.

(** As the code has it: the first case applies when [L < remaining]; a
    code that exactly fills the last word takes the second case and
    appends a new, zero word. *)
Definition strict_pack := pack Z.ltb.

(* ===================================================================== *)
(** ** Paths of the partition tree *)
(* ===================================================================== *)

(** The bits appended to each code of a slice, as a path in the partition
    tree: [false] for the left part, [true] for the right part. *)
Fixpoint paths_fuel (fuel : nat) (codes : list Code) : list (list bool) :=
  match fuel with
  | O => (fun _ => []) <$> codes
  | S fuel' =>
      if (length codes <? 2)%nat then (fun _ => []) <$> codes
      else
        let p := pivot codes in
        (cons false <$> paths_fuel fuel' (take p codes))
          ++ (cons true <$> paths_fuel fuel' (drop p codes))
  end.

Definition paths (codes : list Code) : list (list bool) :=
  paths_fuel (length codes) codes.

(** A code after the bits of a path have been appended to it. *)
Definition extend (code : Code) (path : list bool) : Code :=
  foldl (fun c b => assign_bit b c) code path.

(** Two paths part at some depth: after a common prefix one goes left and
    the other goes right. *)
Definition diverge (p1 p2 : list bool) : Prop :=
  exists q b r1 r2, p1 = q ++ b :: r1 /\ p2 = q ++ negb b :: r2.

(** The number a path spells, most significant bit first. *)
Fixpoint bits_val (l : list bool) : Z :=
  match l with
  | [] => 0
  | b :: l' => Z.b2z b * 2 ^ Z.of_nat (length l') + bits_val l'
  end.

(* ===================================================================== *)
(** ** Properties of tables *)
(* ===================================================================== *)

(** The bit pattern of a code cut to its first [m] bits. *)
Definition truncate (code : Code) (m : Z) : Z :=
  Z.shiftr (Bits code) (Size code - m).

(** No code is a prefix of another one: two distinct entries differ once
    both are cut to the shorter of the two lengths. *)
Definition prefix_free (t : Table) : Prop :=
  forall r1 r2 c1 c2,
    r1 ≠ r2 -> t !! r1 = Some c1 -> t !! r2 = Some c2 ->
    truncate c1 (Z.min (Size c1) (Size c2)) ≠ truncate c2 (Z.min (Size c1) (Size c2)).

(** Every code length of the table lies between [lo] and [hi]. *)
Definition sizes_in (lo hi : Z) (t : Table) : bool :=
  forallb (fun rc => (lo <=? Size rc.2) && (Size rc.2 <=? hi)) (map_to_list t).

(** Codes as they enter [divide]: no bits yet. *)
Definition fresh (codes : list Code) : Prop :=
  forall c, c ∈ codes -> Bits c = 0 /\ Size c = 0.

(** A property of every code of a table, as a test. *)
Definition all_codes (P : Code -> bool) (t : Table) : bool :=
  forallb (fun rc => P rc.2) (map_to_list t).

(** No code has a negative length. *)
Definition sizes_nonneg (t : Table) : bool := all_codes (fun c => 0 <=? Size c) t.

(** The bits of every code fit in its length. *)
Definition bits_fit (t : Table) : bool :=
  all_codes (fun c => (0 <=? Bits c) && (Bits c <? 2 ^ Size c)) t.

(** The codes of a sequence of runes, and the bits they spell. *)
Definition codes_of (t : Table) (s : list Z) (cs : list Code) : Prop :=
  Forall2 (fun r c => t !! r = Some c) s cs.

(** Every rune of a sequence has a code whose length lies between [lo]
    and [hi]. *)
Definition codes_in (lo hi : Z) (t : Table) (rs : list Z) : bool :=
  forallb (fun r => match t !! r with
                    | Some c => (lo <=? Size c) && (Size c <=? hi)
                    | None => false
                    end) rs.

(** The entries of a table whose codes are 1 to 32 bits long: the only
    ones that the scan of [Decode] can select. *)
Definition short_codes (t : Table) : Table :=
  filter (fun rc : Z * Code => 1 <= Size rc.2 <= 32) t.

(* ===================================================================== *)
(** ** Bit vectors and streams *)
(* ===================================================================== *)

(** Word [w] of a vector (0 beyond its end) and the bit at position [pos]
    of the stream: word [pos / 32], counted from the most significant bit. *)
Definition word_at (bitVec : list Z) (w : nat) : Z := default 0 (bitVec !! w).

Definition getbit (bitVec : list Z) (pos : Z) : bool :=
  Z.testbit (word_at bitVec (Z.to_nat (pos / 32))) (31 - pos mod 32).

(** [k] values of a function on consecutive positions from [i] on. *)
Fixpoint bits_from (f : Z -> bool) (i : Z) (k : nat) : list bool :=
  match k with
  | O => []
  | S k' => f i :: bits_from f (i + 1) k'
  end.

(** The stream of a vector from position [i], and the bits of a code. *)
Definition stream (bitVec : list Z) (i : Z) (k : nat) : list bool :=
  bits_from (getbit bitVec) i k.

Definition code_bits (code : Code) : list bool :=
  bits_from (fun j => Z.testbit (Bits code) (Size code - 1 - j)) 0
            (Z.to_nat (Size code)).

Definition word_ok (w : Z) : Prop := 0 <= w < 2 ^ 32.

(** The loop of lines 212-238 seen from the stream: each iteration takes
    the next bit; the words and the refill are abstracted away. *)
Fixpoint decode_bits (t : Table) (bs : list bool) (bits n : Z) (b : list Z)
    : loop_exit :=
  match bs with
  | [] => ExitDone b n
  | x :: bs' =>
      let bits := Z.lor (shl32 bits 1) (Z.b2z x) in
      let n := n + 1 in
      if 32 <? n then ExitNoMatch b
      else
        match find_code t n bits with
        | Some r => decode_bits t bs' 0 0 (b ++ encode_rune r)
        | None => decode_bits t bs' bits n b
        end
  end.

(** The state of the encoding loop: size, length, padding, word range. *)
Definition encoder_inv (bitVec : list Z) (size : Z) : Prop :=
  0 <= size /\
  Z.of_nat (length bitVec) = size / 32 + 1 /\
  (forall p, size <= p -> getbit bitVec p = false) /\
  Forall word_ok bitVec.

(* ===================================================================== *)
(** ** Concrete inputs *)
(* ===================================================================== *)

(** The string "aab". *)
Definition str_aab : list Z := [97; 97; 98].

(** The string "\xff\xffa": two bytes that are not valid UTF-8, then 'a'. *)
Definition str_bad : list Z := [0xFF; 0xFF; 97].

(** The string of the euro sign (U+20AC, three bytes) and two 'a'. *)
Definition str_euro : list Z := [0xE2; 0x82; 0xAC; 97; 97].

(** Two symbols with relative weights 2 and 1. *)
Definition freq2 : gmap Z float := <[97 := 2%float]> {[98 := 1%float]}.

(** 34 symbols, the runes 65 ('A') to 98 ('b'), with the weights
    100, 99, ..., 67: every partition has its pivot at 1, so the codes are
    0, 10, 110, ... and the last two are 33 bits long. *)
Definition freq34 : gmap Z float :=
  list_to_map ((fun i => (65 + Z.of_nat i, float64 (100 - Z.of_nat i))) <$> seq 0 34).

(** Five symbols of weight 4. *)
Definition freq5 : gmap Z float :=
  list_to_map ((fun i => (97 + Z.of_nat i, 4%float)) <$> seq 0 5).

(** Five symbols of weight 1/3 (the quotient of the floats 1 and 3). *)
Definition freq_thirds : gmap Z float :=
  list_to_map ((fun i => (97 + Z.of_nat i, PrimFloat.div 1 3)) <$> seq 0 5).

(** A table with the single one-bit code 0 for 'a' (as a serialised table
    may hold it). *)
Definition table_a : Table := {[97 := mkCode 97 1%float 0 1]}.

(* ===================================================================== *)
(** ** Notions used to state further properties *)
(* ===================================================================== *)

(** Every rune of a string has an entry in the table. *)
Definition covered (t : Table) (s : list Z) : Prop :=
  Forall (fun r => is_Some (t !! r)) s.

(** The sum of the code lengths of the runes of a string, and the bits of
    their codes one after the other (a rune without entry counts for
    nothing). *)
Definition total_size (t : Table) (s : list Z) : Z :=
  foldr (fun r acc => from_option Size 0 (t !! r) + acc) 0 s.

Definition encoded_bits (t : Table) (s : list Z) : list bool :=
  concat ((fun r => from_option code_bits [] (t !! r)) <$> s).

(** Prefix-freeness as a test on the entries of a table. *)
Definition clash (c1 c2 : Code) : bool :=
  truncate c1 (Z.min (Size c1) (Size c2)) =? truncate c2 (Z.min (Size c1) (Size c2)).

Definition prefix_freeb (t : Table) : bool :=
  forallb (fun x =>
             forallb (fun y => (x.1 =? y.1) || negb (clash x.2 y.2)) (map_to_list t))
          (map_to_list t).

(** The number of occurrences of a rune in a string. *)
Definition occurrences (r : Z) (s : list Z) : Z :=
  Z.of_nat (length (filter (fun x => x = r) s)).

(** A table with the codes 0 for 'a', 10 for 'b' and 11 for 'c'. *)
Definition table_abc : Table :=
  <[97 := mkCode 97 (PrimFloat.div 1 2) 0 1]>
    (<[98 := mkCode 98 (PrimFloat.div 1 4) 2 2]>
       {[99 := mkCode 99 (PrimFloat.div 1 4) 3 2]}).

(** The weight of position [i] in a ranked list of [n] runes, and the
    positions of a rune in a list, in increasing order. *)
Definition ranked_weight (n : Z) (i : nat) : float :=
  PrimFloat.div (float64 (n - Z.of_nat i)) (float64 (Z.quot (n * (n - 1)) 2 + n)).

Definition positions (r : Z) (runes : list Z) : list nat :=
  fst <$> filter (fun ir : nat * Z => ir.2 = r) (imap (fun i x => (i, x)) runes).


(** A map with the single symbol 'a'. *)
Definition freq1 : gmap Z float := {[97 := 1%float]}.

(** * Part II: lemmas and theorems *)

(** Goals on [x / 32] and [x mod 32]. *)
Ltac divmod := Z.div_mod_to_equations; lia.

(* ===================================================================== *)
(** ** UTF-8: decoding and writing a rune *)
(* ===================================================================== *)

(** [a | b] is [a + b] when [a] has no bit below [k] and [b] none from [k] on. *)
Lemma lor_disjoint a b k :
  0 <= k -> a mod 2 ^ k = 0 -> 0 <= b < 2 ^ k -> Z.lor a b = a + b.
Proof.
  intros Hk Ha Hb. symmetry. apply Z.add_nocarry_lor.
  apply Z.bits_inj'. intros n Hn. rewrite Z.land_spec, Z.bits_0.
  destruct (Z.lt_ge_cases n k).
  - rewrite <- (Z.mod_pow2_bits_low a k n) by lia. rewrite Ha, Z.bits_0. done.
  - assert (Z.testbit b n = false) as ->; [|by rewrite andb_false_r].
    destruct (Z.eq_dec b 0) as [->|]; [apply Z.bits_0|].
    apply Z.bits_above_log2; [lia|].
    apply Z.log2_lt_pow2; [lia|]. 
    assert (2 ^ k <= 2 ^ n) by (apply Z.pow_le_mono_r; lia). lia.
Qed.

(** Masks and shifts as remainders, products and quotients. *)
Ltac to_arith :=
  unfold byte;
  change 0xFF with (Z.ones 8); change 0x3F with (Z.ones 6);
  change 0x1F with (Z.ones 5); change 0x0F with (Z.ones 4); change 0x07 with (Z.ones 3);
  rewrite ?Z.land_ones by lia;
  rewrite ?Z.shiftl_mul_pow2, ?Z.shiftr_div_pow2 by lia;
  change (2 ^ 3) with 8; change (2 ^ 4) with 16; change (2 ^ 5) with 32;
  change (2 ^ 6) with 64; change (2 ^ 8) with 256; change (2 ^ 12) with 4096;
  change (2 ^ 18) with 262144.

Lemma between_spec lo hi b : between lo hi b = true <-> lo <= b <= hi.
Proof. unfold between. rewrite andb_true_iff, !Z.leb_le. done. Qed.

Lemma decode2 s0 s1 :
  0xC2 <= s0 <= 0xDF -> 0x80 <= s1 <= 0xBF ->
  encode_rune (Z.lor (Z.shiftl (Z.land s0 0x1F) 6) (Z.land s1 0x3F)) = [s0; s1].
Proof.
  intros H0 H1.
  assert (Z.lor (Z.shiftl (Z.land s0 0x1F) 6) (Z.land s1 0x3F)
          = (s0 - 0xC0) * 64 + (s1 - 0x80)) as ->.
  { to_arith. rewrite (lor_disjoint _ _ 6) by (change (2 ^ 6) with 64; divmod). divmod. }
  set (r := _ + _). assert (0x80 <= r <= 0x7FF) as Hr by (subst r; lia).
  unfold encode_rune.
  destruct (between 0 0x7F r) eqn:E1; [apply between_spec in E1; lia|].
  destruct (between 0 0x7FF r) eqn:E2; [|apply not_true_iff_false in E2; rewrite between_spec in E2; lia].
  to_arith.
  rewrite (lor_disjoint 192 _ 6) by (change (2 ^ 6) with 64; subst r; divmod).
  rewrite (lor_disjoint 128 _ 6) by (change (2 ^ 6) with 64; subst r; divmod).
  f_equal; [|f_equal]; subst r; divmod.
Qed.

Lemma between_false lo hi b : between lo hi b = false <-> ~ (lo <= b <= hi).
Proof. rewrite <- between_spec. by destruct (between lo hi b). Qed.

Lemma decode3 s0 s1 s2 :
  0xE0 <= s0 <= 0xEF -> 0x80 <= s1 <= 0xBF -> 0x80 <= s2 <= 0xBF ->
  (s0 = 0xE0 -> 0xA0 <= s1) -> (s0 = 0xED -> s1 <= 0x9F) ->
  encode_rune (Z.lor (Z.lor (Z.shiftl (Z.land s0 0x0F) 12)
                            (Z.shiftl (Z.land s1 0x3F) 6))
                     (Z.land s2 0x3F)) = [s0; s1; s2].
Proof.
  intros H0 H1 H2 Hlo Hhi.
  assert (Z.lor (Z.lor (Z.shiftl (Z.land s0 0x0F) 12) (Z.shiftl (Z.land s1 0x3F) 6))
                (Z.land s2 0x3F)
          = (s0 - 0xE0) * 4096 + (s1 - 0x80) * 64 + (s2 - 0x80)) as ->.
  { to_arith.
    rewrite (lor_disjoint (_ * 4096) _ 12) by (change (2 ^ 12) with 4096; divmod).
    rewrite (lor_disjoint _ _ 6) by (change (2 ^ 6) with 64; divmod). divmod. }
  set (r := _ + _).
  assert (0x800 <= r <= 0xFFFF /\ ~ (0xD800 <= r <= 0xDFFF)) as [Hr Hs] by (subst r; lia).
  unfold encode_rune.
  destruct (between 0 0x7F r) eqn:E1; [apply between_spec in E1; lia|].
  destruct (between 0 0x7FF r) eqn:E2; [apply between_spec in E2; lia|].
  destruct (between 0 0x10FFFF r) eqn:E3; [|apply between_false in E3; lia].
  destruct (between 0xD800 0xDFFF r) eqn:E4; [apply between_spec in E4; lia|].
  simpl. destruct (Z.leb_spec r 0xFFFF); [|lia].
  unfold encode3. to_arith.
  rewrite (lor_disjoint 224 _ 4) by (change (2 ^ 4) with 16; subst r; divmod).
  rewrite !(lor_disjoint 128 _ 6) by (change (2 ^ 6) with 64; subst r; divmod).
  f_equal; [|f_equal; [|f_equal]]; subst r; divmod.
Qed.

Lemma decode4 s0 s1 s2 s3 :
  0xF0 <= s0 <= 0xF4 -> 0x80 <= s1 <= 0xBF -> 0x80 <= s2 <= 0xBF ->
  0x80 <= s3 <= 0xBF ->
  (s0 = 0xF0 -> 0x90 <= s1) -> (s0 = 0xF4 -> s1 <= 0x8F) ->
  encode_rune (Z.lor (Z.lor (Z.lor (Z.shiftl (Z.land s0 0x07) 18)
                                   (Z.shiftl (Z.land s1 0x3F) 12))
                            (Z.shiftl (Z.land s2 0x3F) 6))
                     (Z.land s3 0x3F)) = [s0; s1; s2; s3].
Proof.
  intros H0 H1 H2 H3 Hlo Hhi.
  assert (Z.lor (Z.lor (Z.lor (Z.shiftl (Z.land s0 0x07) 18)
                              (Z.shiftl (Z.land s1 0x3F) 12))
                       (Z.shiftl (Z.land s2 0x3F) 6))
                (Z.land s3 0x3F)
          = (s0 - 0xF0) * 262144 + (s1 - 0x80) * 4096 + (s2 - 0x80) * 64 + (s3 - 0x80))
    as ->.
  { to_arith.
    rewrite (lor_disjoint (_ * 262144) _ 18) by (change (2 ^ 18) with 262144; divmod).
    rewrite (lor_disjoint _ (_ * 64) 12) by (change (2 ^ 12) with 4096; divmod).
    rewrite (lor_disjoint _ _ 6) by (change (2 ^ 6) with 64; divmod). divmod. }
  set (r := _ + _).
  assert (0x10000 <= r <= 0x10FFFF) as Hr by (subst r; lia).
  unfold encode_rune.
  destruct (between 0 0x7F r) eqn:E1; [apply between_spec in E1; lia|].
  destruct (between 0 0x7FF r) eqn:E2; [apply between_spec in E2; lia|].
  destruct (between 0 0x10FFFF r) eqn:E3; [|apply between_false in E3; lia].
  destruct (between 0xD800 0xDFFF r) eqn:E4; [apply between_spec in E4; lia|].
  simpl. destruct (Z.leb_spec r 0xFFFF); [lia|].
  to_arith.
  rewrite (lor_disjoint 240 _ 3) by (change (2 ^ 3) with 8; subst r; divmod).
  rewrite !(lor_disjoint 128 _ 6) by (change (2 ^ 6) with 64; subst r; divmod).
  f_equal; [|f_equal; [|f_equal; [|f_equal]]]; subst r; divmod.
Qed.

Lemma first_size_spec s0 :
  match first_size s0 with
  | 1%nat => 0 <= s0 <= 0x7F
  | 2%nat => 0xC2 <= s0 <= 0xDF
  | 3%nat => 0xE0 <= s0 <= 0xEF
  | 4%nat => 0xF0 <= s0 <= 0xF4
  | _ => True
  end.
Proof.
  unfold first_size.
  destruct (between 0 0x7F s0) eqn:E1; [by apply between_spec|].
  destruct (between 0xC2 0xDF s0) eqn:E2; [by apply between_spec|].
  destruct (between 0xE0 0xEF s0) eqn:E3; [by apply between_spec|].
  destruct (between 0xF0 0xF4 s0) eqn:E4; [by apply between_spec|done].
Qed.

Lemma accept_spec s0 s1 :
  between (accept s0).1 (accept s0).2 s1 = true ->
  0x80 <= s1 <= 0xBF /\
  (s0 = 0xE0 -> 0xA0 <= s1) /\ (s0 = 0xED -> s1 <= 0x9F) /\
  (s0 = 0xF0 -> 0x90 <= s1) /\ (s0 = 0xF4 -> s1 <= 0x8F).
Proof.
  unfold accept.
  destruct (Z.eqb_spec s0 0xE0); [|destruct (Z.eqb_spec s0 0xED);
    [|destruct (Z.eqb_spec s0 0xF0); [|destruct (Z.eqb_spec s0 0xF4)]]];
    simpl; rewrite between_spec; lia.
Qed.

(** A step of the range loop that meets no invalid byte takes the
    encoding of a rune: writing the rune gives back the bytes taken. *)
Lemma decode_rune_step s :
  s ≠ [] -> rune_ok s = true ->
  (1 ≤ (decode_rune s).2 ≤ length s)%nat /\
  encode_rune (decode_rune s).1 = take (decode_rune s).2 s.
Proof.
  destruct s as [|s0 rest]; [done|]. intros _. unfold rune_ok, decode_rune.
  pose proof (first_size_spec s0) as H0.
  destruct (first_size s0) as [|[|[|[|[|n]]]]]; try done.
  - intros _. split; [simpl; lia|]. simpl.
    unfold encode_rune. destruct (between 0 0x7F s0) eqn:E; [|apply between_false in E; lia].
    f_equal. to_arith. divmod.
  - destruct rest as [|s1 rest]; [done|].
    destruct (between _ _ s1) eqn:E1; [|done].
    apply accept_spec in E1 as (H1 & _). intros _. split; [simpl; lia|].
    simpl. by apply decode2.
  - destruct rest as [|s1 [|s2 rest]]; [done|done|].
    destruct (between _ _ s1) eqn:E1; [|done].
    destruct (between _ _ s2) eqn:E2; [|done].
    apply accept_spec in E1 as (H1 & Hlo & Hhi & _). apply between_spec in E2.
    intros _. split; [simpl; lia|]. simpl. by apply decode3.
  - destruct rest as [|s1 [|s2 [|s3 rest]]]; [done|done|done|].
    destruct (between _ _ s1) eqn:E1; [|done].
    destruct (between _ _ s2) eqn:E2; [|done].
    destruct (between _ _ s3) eqn:E3; [|done].
    apply accept_spec in E1 as (H1 & _ & _ & Hlo & Hhi).
    apply between_spec in E2, E3.
    intros _. split; [simpl; lia|]. simpl. by apply decode4.
Qed.

Lemma valid_fuel_roundtrip fuel s :
  (length s ≤ fuel)%nat -> valid_fuel fuel s = true ->
  string_of_runes (range_fuel fuel s) = s.
Proof.
  revert s. induction fuel as [|fuel IH]; intros s Hlen Hv.
  - destruct s; [done|simpl in Hlen; lia].
  - destruct s as [|s0 rest]; [done|].
    cbn [valid_fuel range_fuel] in *. apply andb_true_iff in Hv as [Hok Hv].
    destruct (decode_rune_step (s0 :: rest) ltac:(done) Hok) as [Hw Henc].
    unfold string_of_runes. rewrite fmap_cons. cbn [concat].
    fold (string_of_runes (range_fuel fuel (drop (decode_rune (s0 :: rest)).2 (s0 :: rest)))).
    rewrite IH; [|rewrite length_drop; lia|done].
    rewrite Henc. apply take_drop.
Qed.

(** Ranging over a valid UTF-8 string and writing the runes gives the
    string back. *)
Lemma ValidString_roundtrip s :
  ValidString s = true -> string_of_runes (range_runes s) = s.
Proof. apply valid_fuel_roundtrip. done. Qed.

Lemma range_runes_nil s : range_runes s = [] <-> s = [].
Proof. unfold range_runes. destruct s; [done|]. simpl. split; done. Qed.

Lemma decode_rune_width s :
  s ≠ [] -> (1 ≤ (decode_rune s).2 ≤ length s)%nat.
Proof.
  destruct s as [|s0 rest]; [done|]. intros _. unfold decode_rune.
  destruct (first_size s0) as [|[|[|[|[|n]]]]]; simpl; try lia.
  - destruct rest as [|s1 rest]; simpl; [lia|].
    destruct (between _ _ s1); simpl; lia.
  - destruct rest as [|s1 [|s2 rest]]; simpl; try lia.
    destruct (_ && _); simpl; lia.
  - destruct rest as [|s1 [|s2 [|s3 rest]]]; simpl; try lia.
    destruct (_ && _); simpl; lia.
Qed.

Lemma range_fuel_enough fuel1 fuel2 s :
  (length s ≤ fuel1)%nat -> (length s ≤ fuel2)%nat ->
  range_fuel fuel1 s = range_fuel fuel2 s.
Proof.
  revert fuel2 s. induction fuel1 as [|fuel1 IH]; intros fuel2 s H1 H2.
  - destruct s; [by destruct fuel2|simpl in H1; lia].
  - destruct s as [|s0 rest]; [by destruct fuel2|].
    destruct fuel2 as [|fuel2]; [simpl in H2; lia|].
    cbn [range_fuel]. f_equal.
    pose proof (decode_rune_width (s0 :: rest) ltac:(done)) as Hw.
    apply IH; rewrite length_drop; lia.
Qed.

(** A valid encoding at the start of a string is decoded the same way
    whatever follows it. *)
Lemma decode_rune_app s t :
  s ≠ [] -> rune_ok s = true -> decode_rune (s ++ t) = decode_rune s.
Proof.
  destruct s as [|s0 rest]; [done|]. intros _.
  change ((s0 :: rest) ++ t) with (s0 :: (rest ++ t)).
  unfold rune_ok, decode_rune.
  destruct (first_size s0) as [|[|[|[|[|n]]]]]; try done.
  - by destruct rest as [|s1 rest].
  - by destruct rest as [|s1 [|s2 rest]].
  - by destruct rest as [|s1 [|s2 [|s3 rest]]].
Qed.

Lemma range_fuel_app fuel s t :
  (length s ≤ fuel)%nat -> valid_fuel fuel s = true ->
  range_fuel (fuel + length t) (s ++ t) = range_fuel fuel s ++ range_runes t.
Proof.
  revert s. induction fuel as [|fuel IH]; intros s Hlen Hv.
  - destruct s; [|simpl in Hlen; lia]. done.
  - destruct s as [|s0 rest].
    + simpl app. apply range_fuel_enough; lia.
    + cbn [valid_fuel] in Hv. apply andb_true_iff in Hv as [Hok Hv].
      pose proof (decode_rune_width (s0 :: rest) ltac:(done)) as Hw.
      pose proof (decode_rune_app (s0 :: rest) t ltac:(done) Hok) as Happ.
      simpl app in Happ |- *. cbn [Nat.add range_fuel]. rewrite Happ.
      rewrite app_comm_cons, drop_app_le by lia.
      rewrite IH; [done|rewrite length_drop; lia|done].
Qed.

(** The runes of a string that starts with a valid UTF-8 string. *)
Lemma range_runes_app s t :
  ValidString s = true -> range_runes (s ++ t) = range_runes s ++ range_runes t.
Proof.
  intros Hv. unfold range_runes at 1 2. rewrite length_app.
  by apply range_fuel_app.
Qed.

(* ===================================================================== *)
(** ** The pivot loop *)
(* ===================================================================== *)

Lemma pivot_loop_bounds fuel codes prob p left best :
  (p ≤ pivot_loop fuel codes prob p left best ≤ p `max` (length codes - 1))%nat.
Proof.
  revert p left best.
  induction fuel as [|fuel IH]; intros p left best; simpl; [lia|].
  destruct (Nat.ltb_spec p (length codes - 1)); [|lia].
  destruct (PrimFloat.ltb _ best); [|lia].
  destruct (codes !! p) as [code|]; [|lia].
  match goal with |- context [pivot_loop fuel codes prob (S p) ?l ?b] =>
    specialize (IH (S p) l b) end.
  lia.
Qed.

Lemma pivot_bounds codes :
  (2 ≤ length codes)%nat -> (1 ≤ pivot codes ≤ length codes - 1)%nat.
Proof.
  intros Hlen. destruct codes as [|code0 codes]; [simpl in Hlen; lia|].
  unfold pivot.
  pose proof (pivot_loop_bounds (length (code0 :: codes)) (code0 :: codes)
                (total_prob (code0 :: codes)) 1 (Prob code0) 1%float) as H.
  simpl in *. lia.
Qed.

Lemma total_prob_fmap codes :
  total_prob codes = foldl PrimFloat.add 0%float (Prob <$> codes).
Proof.
  unfold total_prob. generalize 0%float.
  induction codes as [|c codes IH]; intros acc; simpl; [done|]. apply IH.
Qed.

Lemma pivot_loop_scan fuel codes prob p left best :
  (length codes - p ≤ fuel)%nat ->
  pivot_loop fuel codes prob p left best =
  greedy_scan code_dist (drop p (Prob <$> codes)) prob left (Some best) p.
Proof.
  revert p left best.
  induction fuel as [|fuel IH]; intros p left best Hfuel.
  - simpl. rewrite drop_ge; [done|]. rewrite length_fmap. lia.
  - simpl pivot_loop.
    destruct (Nat.ltb_spec p (length codes - 1)) as [Hlt|Hge].
    + destruct (lookup_lt_is_Some_2 codes p ltac:(lia)) as [c Hc].
      destruct (lookup_lt_is_Some_2 codes (S p) ltac:(lia)) as [c' Hc'].
      rewrite Hc.
      rewrite (drop_S _ (Prob c) p) by (rewrite list_lookup_fmap, Hc; done).
      rewrite (drop_S _ (Prob c') (S p)) by (rewrite list_lookup_fmap, Hc'; done).
      simpl greedy_scan. unfold code_dist at 1.
      destruct (PrimFloat.ltb _ best); [|done].
      rewrite IH by lia.
      rewrite (drop_S _ (Prob c') (S p)) by (rewrite list_lookup_fmap, Hc'; done).
      done.
    + destruct (decide (p < length codes)%nat) as [Hin|Hout].
      * destruct (lookup_lt_is_Some_2 codes p ltac:(lia)) as [c Hc].
        rewrite (drop_S _ (Prob c) p) by (rewrite list_lookup_fmap, Hc; done).
        rewrite drop_ge by (rewrite length_fmap; lia). done.
      * rewrite drop_ge by (rewrite length_fmap; lia). done.
Qed.

(** The loop of lines 78-91 computes the bounded scan; in particular the
    pivot depends on the probabilities only. *)
Lemma pivot_scan codes : pivot codes = bounded_pivot (Prob <$> codes).
Proof.
  destruct codes as [|code0 codes]; [done|].
  unfold pivot, bounded_pivot, greedy_pivot.
  rewrite pivot_loop_scan by lia.
  rewrite total_prob_fmap. done.
Qed.

Lemma pivot_ext codes1 codes2 :
  Prob <$> codes1 = Prob <$> codes2 -> pivot codes1 = pivot codes2.
Proof. intros H. rewrite !pivot_scan, H. done. Qed.

(* ===================================================================== *)
(** ** The structure of [divide] *)
(* ===================================================================== *)

(** The update loop marks the left part with 0 and the right part with 1. *)
Lemma imap_assign_bit p codes :
  imap (fun i code => assign_bit (bool_decide (p ≤ i)%nat) code) codes =
  (assign_bit false <$> take p codes) ++ (assign_bit true <$> drop p codes).
Proof.
  revert p. induction codes as [|c codes IH]; intros p.
  - by rewrite take_nil, drop_nil.
  - destruct p as [|p].
    + simpl. f_equal. clear IH.
      change (imap ((fun i code => assign_bit (bool_decide (0 ≤ i)%nat) code) ∘ S) codes
              = assign_bit true <$> codes).
      rewrite <- (imap_const (assign_bit true) codes) at 1.
      apply imap_ext. intros i x _. simpl.
      rewrite ?bool_decide_eq_true_2 by lia. done.
    + simpl. rewrite ?bool_decide_eq_false_2 by lia. f_equal.
      rewrite <- IH. apply imap_ext. intros i x _. simpl.
      f_equal. apply bool_decide_ext. lia.
Qed.

Lemma divide_fuel_step fuel codes :
  (2 ≤ length codes)%nat ->
  divide_fuel (S fuel) codes =
  divide_fuel fuel (assign_bit false <$> take (pivot codes) codes)
    ++ divide_fuel fuel (assign_bit true <$> drop (pivot codes) codes).
Proof.
  intros Hlen. simpl.
  destruct (Nat.ltb_spec (length codes) 2); [lia|].
  pose proof (pivot_bounds codes Hlen) as Hp.
  rewrite imap_assign_bit.
  rewrite take_app_length', drop_app_length'; [done| |];
    rewrite length_fmap, length_take; lia.
Qed.

Lemma divide_fuel_short fuel codes :
  (length codes < 2)%nat -> divide_fuel fuel codes = codes.
Proof.
  intros Hlen. destruct fuel; simpl; [done|].
  destruct (Nat.ltb_spec (length codes) 2); [done|lia].
Qed.

(** Fuel beyond the length of the slice does not change the result. *)
Lemma divide_fuel_enough fuel1 fuel2 codes :
  (length codes ≤ fuel1)%nat -> (length codes ≤ fuel2)%nat ->
  divide_fuel fuel1 codes = divide_fuel fuel2 codes.
Proof.
  revert fuel2 codes.
  induction fuel1 as [|fuel1 IH]; intros fuel2 codes H1 H2.
  - rewrite !divide_fuel_short by lia. done.
  - destruct (decide (length codes < 2)%nat) as [Hs|Hl].
    + rewrite !divide_fuel_short by lia. done.
    + destruct fuel2 as [|fuel2]; [lia|].
      rewrite !divide_fuel_step by lia.
      pose proof (pivot_bounds codes ltac:(lia)) as Hp.
      f_equal; apply IH; rewrite length_fmap, ?length_take, ?length_drop; lia.
Qed.

(** The recursive equation of [divide] (lines 64-106). *)
Lemma divide_eq codes :
  divide codes =
  if (length codes <? 2)%nat then codes
  else divide (assign_bit false <$> take (pivot codes) codes)
         ++ divide (assign_bit true <$> drop (pivot codes) codes).
Proof.
  unfold divide.
  destruct (Nat.ltb_spec (length codes) 2) as [Hs|Hl].
  - by apply divide_fuel_short.
  - pose proof (pivot_bounds codes Hl) as Hp.
    destruct (length codes) as [|n] eqn:Hn; [lia|].
    rewrite divide_fuel_step by lia.
    f_equal; apply divide_fuel_enough;
      rewrite ?length_fmap, ?length_take, ?length_drop; lia.
Qed.

Lemma length_paths_fuel fuel codes :
  length (paths_fuel fuel codes) = length codes.
Proof.
  revert codes. induction fuel as [|fuel IH]; intros codes; simpl.
  - by rewrite length_fmap.
  - destruct (length codes <? 2)%nat; [by rewrite length_fmap|].
    rewrite length_app, !length_fmap, !IH, length_take, length_drop. lia.
Qed.

Lemma fmap_nil_paths (codes1 codes2 : list Code) :
  length codes1 = length codes2 ->
  (fun _ => @nil bool) <$> codes1 = (fun _ => []) <$> codes2.
Proof.
  revert codes2. induction codes1 as [|c codes1 IH]; intros [|d codes2] H;
    simpl in *; try lia; [done|].
  f_equal. apply IH. lia.
Qed.

Lemma paths_fuel_ext fuel codes1 codes2 :
  Prob <$> codes1 = Prob <$> codes2 ->
  paths_fuel fuel codes1 = paths_fuel fuel codes2.
Proof.
  revert codes1 codes2. induction fuel as [|fuel IH]; intros codes1 codes2 H.
  - simpl. apply fmap_nil_paths.
    apply (f_equal length) in H. by rewrite !length_fmap in H.
  - simpl. assert (length codes1 = length codes2) as Hlen.
    { apply (f_equal length) in H. by rewrite !length_fmap in H. }
    rewrite Hlen, (pivot_ext _ _ H).
    destruct (length codes2 <? 2)%nat.
    + by apply fmap_nil_paths.
    + f_equal; f_equal; apply IH; rewrite ?fmap_take, ?fmap_drop, H; done.
Qed.

Lemma extend_cons code b path :
  extend code (b :: path) = extend (assign_bit b code) path.
Proof. done. Qed.

Lemma extend_snoc code path b :
  extend code (path ++ [b]) = assign_bit b (extend code path).
Proof. unfold extend. by rewrite foldl_app. Qed.

Lemma zip_with_extend_nil codes :
  zip_with extend codes ((fun _ => []) <$> codes) = codes.
Proof. induction codes; simpl; [done|]. by f_equal. Qed.

Lemma zip_with_extend_cons b codes ps :
  zip_with extend (assign_bit b <$> codes) ps = zip_with extend codes (cons b <$> ps).
Proof.
  revert ps. induction codes as [|c codes IH]; intros [|p ps]; simpl; try done.
  by rewrite IH.
Qed.

(** Every code leaves [divide] extended by its path. *)
Lemma divide_fuel_paths fuel codes :
  divide_fuel fuel codes = zip_with extend codes (paths_fuel fuel codes).
Proof.
  revert codes. induction fuel as [|fuel IH]; intros codes.
  - simpl. by rewrite zip_with_extend_nil.
  - destruct (decide (length codes < 2)%nat) as [Hs|Hl].
    + rewrite divide_fuel_short by done. simpl.
      destruct (Nat.ltb_spec (length codes) 2); [|lia].
      by rewrite zip_with_extend_nil.
    + rewrite divide_fuel_step by lia. simpl.
      destruct (Nat.ltb_spec (length codes) 2); [lia|].
      pose proof (pivot_bounds codes ltac:(lia)) as Hp.
      rewrite !IH, !zip_with_extend_cons.
      rewrite (paths_fuel_ext fuel (assign_bit false <$> _) (take (pivot codes) codes)).
      2:{ rewrite <- list_fmap_compose. done. }
      rewrite (paths_fuel_ext fuel (assign_bit true <$> _) (drop (pivot codes) codes)).
      2:{ rewrite <- list_fmap_compose. done. }
      rewrite <- zip_with_app.
      * by rewrite take_drop.
      * rewrite length_fmap, length_paths_fuel. done.
Qed.

Lemma divide_paths codes : divide codes = zip_with extend codes (paths codes).
Proof. apply divide_fuel_paths. Qed.

(* ===================================================================== *)
(** ** Paths of the partition tree *)
(* ===================================================================== *)

Lemma diverge_cons b p1 p2 : diverge p1 p2 -> diverge (b :: p1) (b :: p2).
Proof.
  intros (q & c & r1 & r2 & -> & ->). by exists (b :: q), c, r1, r2.
Qed.

Lemma diverge_head b p1 p2 : diverge (b :: p1) (negb b :: p2).
Proof. by exists [], b, p1, p2. Qed.

Lemma paths_fuel_diverge fuel codes i j pi pj :
  (length codes ≤ fuel)%nat -> i ≠ j ->
  paths_fuel fuel codes !! i = Some pi ->
  paths_fuel fuel codes !! j = Some pj ->
  diverge pi pj.
Proof.
  revert codes i j pi pj.
  induction fuel as [|fuel IH]; intros codes i j pi pj Hfuel Hne Hi Hj.
  - apply lookup_lt_Some in Hi. rewrite length_paths_fuel in Hi. lia.
  - simpl in Hi, Hj.
    destruct (Nat.ltb_spec (length codes) 2) as [Hs|Hl].
    + apply lookup_lt_Some in Hi, Hj. rewrite length_fmap in Hi, Hj. lia.
    + pose proof (pivot_bounds codes Hl) as Hp.
      set (p := pivot codes) in *.
      assert (length (take p codes) ≤ fuel)%nat by (rewrite length_take; lia).
      assert (length (drop p codes) ≤ fuel)%nat by (rewrite length_drop; lia).
      apply lookup_app_Some in Hi as [Hi|[Hli Hi]];
        apply lookup_app_Some in Hj as [Hj|[Hlj Hj]];
        rewrite list_lookup_fmap in Hi, Hj;
        rewrite ?length_fmap in *;
        destruct (paths_fuel fuel _ !! _) as [xi|] eqn:Ei in Hi; try discriminate;
        destruct (paths_fuel fuel _ !! _) as [xj|] eqn:Ej in Hj; try discriminate;
        simpl in Hi, Hj; simplify_eq.
      * apply diverge_cons. eapply (IH (take p codes) i j); eauto.
      * apply (diverge_head false).
      * apply (diverge_head true).
      * apply diverge_cons.
        eapply (IH (drop p codes)); [done| |exact Ei|exact Ej]. lia.
Qed.

Lemma paths_fuel_length_le fuel codes i pi :
  paths_fuel fuel codes !! i = Some pi ->
  (length pi ≤ length codes - 1)%nat.
Proof.
  revert codes i pi. induction fuel as [|fuel IH]; intros codes i pi Hi.
  - simpl in Hi. rewrite list_lookup_fmap in Hi.
    destruct (codes !! i); simplify_eq/=. lia.
  - simpl in Hi. destruct (Nat.ltb_spec (length codes) 2) as [Hs|Hl].
    + rewrite list_lookup_fmap in Hi. destruct (codes !! i); simplify_eq/=. lia.
    + pose proof (pivot_bounds codes Hl) as Hp.
      set (p := pivot codes) in *.
      apply lookup_app_Some in Hi as [Hi|[Hli Hi]];
        rewrite list_lookup_fmap in Hi;
        destruct (paths_fuel fuel _ !! _) as [x|] eqn:E in Hi; try discriminate;
        simpl in Hi; simplify_eq; apply IH in E;
        rewrite ?length_take, ?length_drop in E; simpl; lia.
Qed.

Lemma paths_nonempty codes i pi :
  (2 ≤ length codes)%nat -> paths codes !! i = Some pi -> pi ≠ [].
Proof.
  intros Hlen Hi. unfold paths in Hi.
  destruct (length codes) as [|n] eqn:Hn; [lia|]. simpl in Hi.
  rewrite Hn in Hi. destruct (Nat.ltb_spec (S n) 2); [lia|].
  apply lookup_app_Some in Hi as [Hi|[Hli Hi]];
    rewrite list_lookup_fmap in Hi;
    destruct (paths_fuel n _ !! _); simplify_eq/=; done.
Qed.

Lemma bits_val_bound l : 0 <= bits_val l < 2 ^ Z.of_nat (length l).
Proof.
  induction l as [|b l IH]; simpl bits_val; simpl length; [lia|].
  rewrite Nat2Z.inj_succ, Z.pow_succ_r by lia.
  destruct b; simpl Z.b2z; lia.
Qed.

Lemma bits_val_app a b :
  bits_val (a ++ b) = bits_val a * 2 ^ Z.of_nat (length b) + bits_val b.
Proof.
  induction a as [|x a IH]; simpl bits_val; [lia|].
  rewrite IH, length_app, Nat2Z.inj_add, Z.pow_add_r by lia. ring.
Qed.

Lemma bits_val_inj l1 l2 :
  length l1 = length l2 -> bits_val l1 = bits_val l2 -> l1 = l2.
Proof.
  revert l2. induction l1 as [|b1 l1 IH]; intros [|b2 l2] Hlen Hval;
    simpl in Hlen; try lia; [done|].
  simpl bits_val in Hval. injection Hlen as Hlen. rewrite Hlen in Hval.
  pose proof (bits_val_bound l1) as B1. pose proof (bits_val_bound l2) as B2.
  rewrite Hlen in B1.
  assert (b1 = b2) as -> by (destruct b1, b2; simpl Z.b2z in Hval; try done; lia).
  f_equal. apply IH; [done|lia].
Qed.

(** Truncating the number of a path to its first [m] bits. *)
Lemma bits_val_take l (m : nat) :
  (m ≤ length l)%nat ->
  Z.shiftr (bits_val l) (Z.of_nat (length l) - Z.of_nat m) = bits_val (take m l).
Proof.
  intros Hm. rewrite <- (take_drop m l) at 1.
  rewrite bits_val_app.
  assert (Z.of_nat (length l) - Z.of_nat m = Z.of_nat (length (drop m l))) as ->
    by (rewrite length_drop; lia).
  pose proof (bits_val_bound (drop m l)) as B.
  rewrite Z.shiftr_div_pow2 by lia.
  rewrite Z.div_add_l by lia.
  rewrite Z.div_small by lia. lia.
Qed.

Lemma lor_double_bit x (b : bool) : Z.lor (2 * x) (Z.b2z b) = 2 * x + Z.b2z b.
Proof.
  symmetry. apply Z.add_nocarry_lor.
  destruct b; simpl Z.b2z; [|apply Z.land_0_r].
  change 1 with (Z.ones 1). rewrite Z.land_ones by lia.
  change (2 ^ 1) with 2. rewrite Z.mul_comm. apply Z.mod_mul. lia.
Qed.

Lemma shl32_1 v : 0 <= v < 2 ^ 31 -> shl32 v 1 = 2 * v.
Proof.
  intros Hv. unfold shl32, wrap32. change (1 <? 32) with true. cbv iota.
  rewrite Z.shiftl_mul_pow2 by lia. change (2 ^ 1) with 2.
  change (2 ^ 31) with 2147483648 in Hv. change (2 ^ 32) with 4294967296.
  rewrite Z.mod_small; lia.
Qed.

Lemma extend_Char code path : Char (extend code path) = Char code.
Proof. revert code. induction path as [|b path IH]; intros code; [done|]. rewrite extend_cons, IH. done. Qed.

Lemma extend_Size code path :
  Size (extend code path) = Size code + Z.of_nat (length path).
Proof.
  revert code. induction path as [|b path IH]; intros code; simpl length.
  - simpl. lia.
  - rewrite extend_cons, IH. simpl. lia.
Qed.

(** Without overflow the bits of a code are the number of its path. *)
Lemma extend_Bits code path :
  Bits code = 0 -> (length path ≤ 32)%nat ->
  Bits (extend code path) = bits_val path.
Proof.
  intros Hz. induction path as [|b path IH] using rev_ind; intros Hlen.
  - done.
  - rewrite length_app in Hlen. simpl in Hlen.
    rewrite extend_snoc, bits_val_app. simpl length. simpl bits_val.
    unfold assign_bit; simpl Bits. rewrite IH by lia.
    pose proof (bits_val_bound path) as B.
    assert (2 ^ Z.of_nat (length path) <= 2 ^ 31)
      by (apply Z.pow_le_mono_r; lia).
    rewrite shl32_1 by lia.
    destruct b.
    + rewrite (lor_double_bit _ true). simpl Z.b2z. lia.
    + simpl Z.b2z. lia.
Qed.

(* ===================================================================== *)
(** ** Tables *)
(* ===================================================================== *)

Lemma sizes_in_spec lo hi (t : Table) :
  sizes_in lo hi t = true <-> forall r c, t !! r = Some c -> lo <= Size c <= hi.
Proof.
  unfold sizes_in. rewrite forallb_forall. split.
  - intros H r c Hrc. apply elem_of_map_to_list in Hrc.
    apply list_elem_of_In in Hrc. apply H in Hrc. simpl in Hrc. lia.
  - intros H [r c] Hin. apply list_elem_of_In, elem_of_map_to_list in Hin.
    apply H in Hin. simpl. lia.
Qed.

Lemma foldl_insert_lookup codes (t0 : Table) r c :
  foldl (fun table code => <[Char code := code]> table) t0 codes !! r = Some c ->
  t0 !! r = Some c \/ (c ∈ codes /\ Char c = r).
Proof.
  revert t0. induction codes as [|a codes IH]; intros t0 H; simpl in H; [by left|].
  apply IH in H as [H|[H1 H2]].
  - apply lookup_insert_Some in H as [[<- <-]|[_ H]]; [right|by left].
    split; [apply list_elem_of_here|done].
  - right. split; [by apply list_elem_of_further|done].
Qed.

Lemma make_table_lookup codes r c :
  make_table codes !! r = Some c -> c ∈ codes /\ Char c = r.
Proof.
  intros H. apply foldl_insert_lookup in H as [H|H]; [|done].
  by rewrite lookup_empty in H.
Qed.

Lemma foldl_insert_dom codes (t0 : Table) :
  dom (foldl (fun table code => <[Char code := code]> table) t0 codes)
  = dom t0 ∪ list_to_set (Char <$> codes).
Proof.
  revert t0. induction codes as [|a codes IH]; intros t0; simpl.
  - by rewrite (right_id_L ∅ (∪)).
  - rewrite IH, dom_insert_L.
    rewrite (comm_L (∪) {[Char a]} (dom t0)). by rewrite (assoc_L (∪)).
Qed.

Lemma make_table_dom codes :
  dom (make_table codes) = list_to_set (Char <$> codes).
Proof.
  unfold make_table. rewrite foldl_insert_dom, dom_empty_L.
  by rewrite (left_id_L ∅ (∪)).
Qed.

(** The sort returns a permutation of its input. *)
Lemma insert_code_perm c l : insert_code c l ≡ₚ c :: l.
Proof.
  induction l as [|d l IH]; simpl; [done|].
  destruct (less d c); [|done].
  rewrite IH. apply Permutation_swap.
Qed.

Lemma sort_codes_perm l : sort_codes l ≡ₚ l.
Proof.
  induction l as [|c l IH]; simpl; [done|].
  rewrite insert_code_perm. by rewrite IH.
Qed.

Lemma fresh_new_codes freq : fresh (sort_codes (new_codes freq)).
Proof.
  intros c Hc. rewrite sort_codes_perm in Hc.
  unfold new_codes in Hc. apply list_elem_of_fmap in Hc as (rp & -> & _). done.
Qed.

Lemma length_sorted_codes freq :
  length (sort_codes (new_codes freq)) = size freq.
Proof.
  rewrite sort_codes_perm. unfold new_codes.
  rewrite length_fmap. apply length_map_to_list.
Qed.

Lemma divide_entry codes c :
  c ∈ divide codes ->
  exists i c0 path,
    divide codes !! i = Some c /\
    codes !! i = Some c0 /\ paths codes !! i = Some path /\ c = extend c0 path.
Proof.
  intros Hc. apply list_elem_of_lookup in Hc as [i Hi].
  pose proof Hi as Hi'. rewrite divide_paths in Hi'.
  apply lookup_zip_with_Some in Hi' as (c0 & path & -> & H0 & Hp).
  by exists i, c0, path.
Qed.

Lemma divide_Char codes : Char <$> divide codes = Char <$> codes.
Proof.
  rewrite divide_paths. unfold paths.
  pose proof (length_paths_fuel (length codes) codes) as Hlen.
  revert Hlen. generalize (paths_fuel (length codes) codes).
  induction codes as [|c codes IH]; intros [|p ps] Hlen; simpl in *; try lia; [done|].
  rewrite extend_Char. f_equal. apply IH. lia.
Qed.

(** The entries of a table built from fresh codes, in whatever order they
    were sorted: each is a fresh code extended by its path. *)
Lemma table_entry codes r c :
  fresh codes ->
  make_table (divide codes) !! r = Some c ->
  exists i path,
    divide codes !! i = Some c /\
    paths codes !! i = Some path /\ Char c = r /\
    Size c = Z.of_nat (length path) /\
    ((length path ≤ 32)%nat -> Bits c = bits_val path).
Proof.
  intros Hfresh Hc. apply make_table_lookup in Hc as [Hc Hr].
  apply divide_entry in Hc as (i & c0 & path & Hi & H0 & Hp & ->).
  destruct (Hfresh c0) as [Hb Hs]; [by eapply list_elem_of_lookup_2|].
  exists i, path. repeat split; [done|done|done| |].
  - rewrite extend_Size. lia.
  - intros Hlen. by apply extend_Bits.
Qed.

Lemma table_sizes codes r c :
  fresh codes ->
  make_table (divide codes) !! r = Some c ->
  0 <= Size c <= Z.of_nat (length codes) - 1 /\
  ((2 ≤ length codes)%nat -> 1 <= Size c).
Proof.
  intros Hfresh Hc.
  pose proof (make_table_lookup _ _ _ Hc) as [Hin _].
  apply table_entry in Hc as (i & path & _ & Hp & _ & Hs & _); [|done].
  pose proof (paths_fuel_length_le _ _ _ _ Hp) as Hle.
  assert (length codes ≠ 0)%nat.
  { apply lookup_lt_Some in Hp. unfold paths in Hp.
    rewrite length_paths_fuel in Hp. lia. }
  split; [lia|]. intros H2. pose proof (paths_nonempty _ _ _ H2 Hp).
  destruct path; [done|]. simpl in Hs. lia.
Qed.

(** Prefix-freeness of the codes that fit in 32 bits, for every order in
    which the codes may have been sorted. *)
Lemma table_prefix_free codes r1 r2 c1 c2 :
  fresh codes -> r1 ≠ r2 ->
  make_table (divide codes) !! r1 = Some c1 ->
  make_table (divide codes) !! r2 = Some c2 ->
  Size c1 <= 32 -> Size c2 <= 32 ->
  truncate c1 (Z.min (Size c1) (Size c2)) ≠ truncate c2 (Z.min (Size c1) (Size c2)).
Proof.
  intros Hfresh Hne H1 H2 Hs1 Hs2.
  apply table_entry in H1 as (i & p1 & Hi1 & Hp1 & Hr1 & Hsz1 & Hb1); [|done].
  apply table_entry in H2 as (j & p2 & Hi2 & Hp2 & Hr2 & Hsz2 & Hb2); [|done].
  assert (i ≠ j) as Hij.
  { intros ->. rewrite Hi1 in Hi2. injection Hi2 as ->. congruence. }
  destruct (paths_fuel_diverge _ _ _ _ _ _ (le_n _) Hij Hp1 Hp2)
    as (q & b & x1 & x2 & E1 & E2).
  unfold truncate. rewrite Hb1, Hb2 by lia. rewrite Hsz1, Hsz2.
  rewrite <- Nat2Z.inj_min.
  set (m := (length p1 `min` length p2)%nat).
  rewrite !bits_val_take by lia.
  intros Heq. apply bits_val_inj in Heq; [|rewrite !length_take; lia].
  assert (length q < m)%nat as Hq.
  { subst m p1 p2. rewrite !length_app. simpl. lia. }
  assert (take m p1 !! length q = Some b) as L1.
  { rewrite lookup_take_lt by done. subst p1. by apply list_lookup_middle. }
  assert (take m p2 !! length q = Some (negb b)) as L2.
  { rewrite lookup_take_lt by done. subst p2. by apply list_lookup_middle. }
  rewrite Heq, L2 in L1. by destruct b.
Qed.

(* ===================================================================== *)
(** ** Bit vectors *)
(* ===================================================================== *)

Lemma length_bits_from f i k : length (bits_from f i k) = k.
Proof. revert i. induction k as [|k IH]; intros i; simpl; [done|]. by rewrite IH. Qed.

Lemma bits_from_app f i k1 k2 :
  bits_from f i (k1 + k2) = bits_from f i k1 ++ bits_from f (i + Z.of_nat k1) k2.
Proof.
  revert i. induction k1 as [|k1 IH]; intros i.
  - simpl. f_equal. lia.
  - cbn [Nat.add bits_from app]. rewrite IH. do 3 f_equal. lia.
Qed.

Lemma bits_from_ext f g i j k :
  (forall d, 0 <= d < Z.of_nat k -> f (i + d) = g (j + d)) ->
  bits_from f i k = bits_from g j k.
Proof.
  revert i j. induction k as [|k IH]; intros i j H; simpl; [done|].
  f_equal.
  - specialize (H 0). rewrite !Z.add_0_r in H. apply H. lia.
  - apply IH. intros d Hd. specialize (H (1 + d)).
    rewrite !Z.add_assoc in H. apply H. lia.
Qed.

Lemma word_at_or_last bitVec x w :
  word_at (or_last bitVec x) w =
  if decide (S w = length bitVec) then Z.lor (word_at bitVec w) x
  else word_at bitVec w.
Proof.
  unfold word_at, or_last. case_decide as Hw.
  - replace (length bitVec - 1)%nat with w by lia.
    rewrite list_lookup_alter_eq.
    destruct (lookup_lt_is_Some_2 bitVec w ltac:(lia)) as [y ->]. done.
  - destruct (decide (length bitVec = 0)%nat) as [H0|H0].
    + destruct bitVec; [done|simpl in H0; lia].
    + rewrite list_lookup_alter_ne by lia. done.
Qed.

Lemma length_or_last bitVec x : length (or_last bitVec x) = length bitVec.
Proof. unfold or_last. apply length_alter. Qed.

Lemma word_at_snoc bitVec x w :
  word_at (bitVec ++ [x]) w =
  if decide (w < length bitVec)%nat then word_at bitVec w
  else if decide (w = length bitVec) then x else 0.
Proof.
  unfold word_at. case_decide as H1.
  - by rewrite lookup_app_l.
  - rewrite lookup_app_r by lia. case_decide as H2.
    + subst. by rewrite Nat.sub_diag.
    + destruct (w - length bitVec)%nat eqn:E; [lia|]. done.
Qed.

Lemma word_at_ge bitVec w : (length bitVec ≤ w)%nat -> word_at bitVec w = 0.
Proof. intros H. unfold word_at. by rewrite lookup_ge_None_2. Qed.

(** Bits of shifted words. *)
Lemma testbit_above b (L j : Z) :
  0 <= b < 2 ^ L -> L <= j -> Z.testbit b j = false.
Proof.
  intros Hb Hj. destruct (Z.le_gt_cases 0 L) as [HL|HL].
  - rewrite <- (Z.mod_small b (2 ^ L)) by done.
    apply Z.mod_pow2_bits_high. lia.
  - rewrite Z.pow_neg_r in Hb by lia. lia.
Qed.

Lemma testbit_shl32 b k j :
  0 <= k -> 0 <= j < 32 ->
  Z.testbit (shl32 b k) j = Z.testbit b (j - k).
Proof.
  intros Hk Hj. unfold shl32, wrap32.
  destruct (Z.ltb_spec k 32).
  - rewrite Z.mod_pow2_bits_low by lia. by rewrite Z.shiftl_spec by lia.
  - rewrite Z.bits_0. symmetry. apply Z.testbit_neg_r. lia.
Qed.

Lemma to_uint_small x : 0 <= x < 2 ^ 64 -> to_uint x = x.
Proof. intros H. unfold to_uint. by rewrite Z.mod_small. Qed.

Lemma land_0x1F size : Z.land size 0x1F = size mod 32.
Proof. change 0x1F with (Z.ones 5). rewrite Z.land_ones by lia. done. Qed.

Lemma shl32_ok b k : word_ok (shl32 b k).
Proof.
  unfold word_ok, shl32, wrap32. destruct (k <? 32); [|done].
  apply Z.mod_pos_bound. done.
Qed.

(* ===================================================================== *)
(** ** One step of the encoder *)
(* ===================================================================== *)

Lemma encode_step_size code bitVec size :
  (encode_step code bitVec size).2 = size + Size code.
Proof. unfold encode_step. by destruct (_ <? _). Qed.

(** The vector keeps one word more than [size / 32], provided no code is
    longer than 32 bits. *)
Lemma encode_step_length code bitVec size :
  0 <= size -> Z.of_nat (length bitVec) = size / 32 + 1 ->
  0 <= Size code <= 32 ->
  Z.of_nat (length (encode_step code bitVec size).1) = (size + Size code) / 32 + 1.
Proof.
  intros Hsize Hlen HL. unfold encode_step. rewrite land_0x1F.
  destruct (Z.ltb_spec (size mod 32 + Size code) 0x20) as [Hfit|Hspan]; simpl fst.
  - rewrite length_or_last. divmod.
  - rewrite length_app, length_or_last. simpl length. divmod.
Qed.

(** What a step writes: the bit at [pos] is set when it was set before or
    when the code has a bit for it; the code occupies the positions
    [size .. size + Size code - 1], most significant bit first. *)
Lemma encode_step_getbit code bitVec size pos :
  0 <= size -> Z.of_nat (length bitVec) = size / 32 + 1 ->
  0 <= Size code <= 32 -> 0 <= Bits code < 2 ^ Size code -> 0 <= pos ->
  getbit (encode_step code bitVec size).1 pos =
  getbit bitVec pos || Z.testbit (Bits code) (size + Size code - 1 - pos).
Proof.
  intros Hsize Hlen HL HB Hpos. unfold encode_step. rewrite land_0x1F.
  assert (0 <= pos / 32) as Hw by divmod.
  assert (0 <= pos mod 32 < 32) as Ho by divmod.
  destruct (Z.ltb_spec (size mod 32 + Size code) 0x20) as [Hfit|Hspan]; simpl fst.
  - unfold getbit. rewrite word_at_or_last. case_decide as Hlast.
    + rewrite Z.lor_spec. f_equal.
      rewrite to_uint_small by divmod.
      rewrite testbit_shl32 by divmod. f_equal. divmod.
    + destruct (Z.lt_ge_cases (pos / 32) (size / 32)).
      * rewrite (testbit_above (Bits code) (Size code)) by (done || divmod).
        by rewrite orb_false_r.
      * rewrite (Z.testbit_neg_r (Bits code)) by divmod.
        by rewrite orb_false_r.
  - unfold getbit. rewrite word_at_snoc, length_or_last.
    case_decide as Hin; [rewrite word_at_or_last; case_decide as Hlast|].
    + rewrite Z.lor_spec. f_equal.
      rewrite to_uint_small by divmod.
      unfold shr32. destruct (Z.ltb_spec (Size code - (0x20 - size mod 32)) 32); [|divmod].
      rewrite Z.shiftr_spec by lia. f_equal. divmod.
    + rewrite (testbit_above (Bits code) (Size code)) by (done || divmod).
      by rewrite orb_false_r.
    + rewrite (word_at_ge bitVec) by lia. rewrite Z.bits_0. simpl orb.
      case_decide as Hnew.
      * rewrite to_uint_small by divmod.
        rewrite testbit_shl32 by divmod. f_equal. divmod.
      * rewrite Z.bits_0. symmetry. apply Z.testbit_neg_r. divmod.
Qed.

(** Nothing is written at or beyond the new size, whatever the length of
    the code. *)
Lemma encode_step_padding code bitVec size pos :
  0 <= size -> 1 <= Z.of_nat (length bitVec) <= size / 32 + 1 ->
  0 <= Size code ->
  (forall p, size <= p -> getbit bitVec p = false) ->
  size + Size code <= pos ->
  getbit (encode_step code bitVec size).1 pos = false.
Proof.
  intros Hsize Hlen HL Hpad Hpos. unfold encode_step. rewrite land_0x1F.
  assert (0 <= pos / 32) as Hw by divmod.
  assert (0 <= pos mod 32 < 32) as Ho by divmod.
  specialize (Hpad pos ltac:(lia)). unfold getbit in Hpad.
  destruct (Z.ltb_spec (size mod 32 + Size code) 0x20) as [Hfit|Hspan]; simpl fst.
  - unfold getbit. rewrite word_at_or_last. case_decide as Hlast; [|done].
    rewrite Z.lor_spec, Hpad. simpl orb.
    rewrite to_uint_small by divmod.
    rewrite testbit_shl32 by divmod. apply Z.testbit_neg_r. divmod.
  - unfold getbit. rewrite word_at_snoc, length_or_last.
    case_decide as Hin; [divmod|].
    case_decide as Hnew; [|apply Z.bits_0].
    rewrite to_uint_small by divmod.
    rewrite testbit_shl32 by divmod. apply Z.testbit_neg_r. divmod.
Qed.

Lemma encode_step_length_le code bitVec size :
  0 <= size -> 1 <= Z.of_nat (length bitVec) <= size / 32 + 1 ->
  0 <= Size code ->
  1 <= Z.of_nat (length (encode_step code bitVec size).1) <= (size + Size code) / 32 + 1.
Proof.
  intros Hsize Hlen HL. unfold encode_step. rewrite land_0x1F.
  destruct (Z.ltb_spec (size mod 32 + Size code) 0x20) as [Hfit|Hspan]; simpl fst.
  - rewrite length_or_last. divmod.
  - rewrite length_app, length_or_last. simpl length. divmod.
Qed.

(* ===================================================================== *)
(** ** The encoding loop *)
(* ===================================================================== *)

Lemma all_codes_spec P (t : Table) :
  all_codes P t = true <-> forall r c, t !! r = Some c -> P c = true.
Proof.
  unfold all_codes. rewrite forallb_forall. split.
  - intros H r c Hrc. apply elem_of_map_to_list in Hrc.
    apply list_elem_of_In in Hrc. by apply H in Hrc.
  - intros H [r c] Hin. apply list_elem_of_In, elem_of_map_to_list in Hin.
    by apply H in Hin.
Qed.

Lemma sizes_nonneg_spec (t : Table) r c :
  sizes_nonneg t = true -> t !! r = Some c -> 0 <= Size c.
Proof.
  intros H Hc. apply (proj1 (all_codes_spec _ _) H) in Hc. lia.
Qed.

Lemma bits_fit_spec (t : Table) r c :
  bits_fit t = true -> t !! r = Some c -> 0 <= Bits c < 2 ^ Size c.
Proof.
  intros H Hc. apply (proj1 (all_codes_spec _ _) H) in Hc. lia.
Qed.

(** Padding is an invariant of the loop. *)
Lemma encode_loop_padding (t : Table) s bitVec size bitVec' size' :
  sizes_nonneg t = true ->
  0 <= size -> 1 <= Z.of_nat (length bitVec) <= size / 32 + 1 ->
  (forall p, size <= p -> getbit bitVec p = false) ->
  encode_loop t s bitVec size = Ok (bitVec', size') ->
  forall p, size' <= p -> getbit bitVec' p = false.
Proof.
  intros Ht. revert bitVec size.
  induction s as [|r s IH]; intros bitVec size Hsize Hlen Hpad Henc; simpl in Henc.
  - by injection Henc as <- <-.
  - destruct (t !! r) as [code|] eqn:Hr; [|done].
    pose proof (sizes_nonneg_spec _ _ _ Ht Hr) as HL.
    pose proof (encode_step_size code bitVec size) as E2.
    pose proof (encode_step_length_le code bitVec size Hsize Hlen HL) as E1.
    pose proof (fun pos => encode_step_padding code bitVec size pos Hsize Hlen HL Hpad) as E3.
    destruct (encode_step code bitVec size) as [bitVec1 size1].
    simpl in E1, E2, E3. subst size1.
    apply (IH bitVec1 (size + Size code)); [lia|done|done|done].
Qed.

Lemma getbit_initial p : getbit [0] p = false.
Proof.
  unfold getbit, word_at.
  destruct (Z.to_nat (p / 32)) as [|[|w]]; simpl; apply Z.bits_0.
Qed.

(** The length of the vector is an invariant of the loop when no code is
    longer than 32 bits. *)
Lemma encode_loop_length (t : Table) s bitVec size bitVec' size' :
  sizes_in 0 32 t = true ->
  0 <= size -> Z.of_nat (length bitVec) = size / 32 + 1 ->
  encode_loop t s bitVec size = Ok (bitVec', size') ->
  0 <= size' /\ Z.of_nat (length bitVec') = size' / 32 + 1.
Proof.
  intros Ht. revert bitVec size.
  induction s as [|r s IH]; intros bitVec size Hsize Hlen Henc; simpl in Henc.
  - by injection Henc as <- <-.
  - destruct (t !! r) as [code|] eqn:Hr; [|done].
    pose proof (proj1 (sizes_in_spec _ _ _) Ht _ _ Hr) as HL.
    pose proof (encode_step_size code bitVec size) as E2.
    pose proof (encode_step_length code bitVec size Hsize Hlen HL) as E1.
    destruct (encode_step code bitVec size) as [bitVec1 size1].
    simpl in E1, E2. subst size1.
    apply (IH bitVec1 (size + Size code)); [lia|done|done].
Qed.

(* ===================================================================== *)
(** ** The storage check of the decoder *)
(* ===================================================================== *)

Lemma decode_return_not_invalid e s :
  decode_return e ≠ Some (s, Some InvalidVector).
Proof. destruct e as [b n| |]; simpl; [destruct (n =? 0)| |]; congruence. Qed.

Lemma Decode_invalid_iff (t : Table) bitVec size :
  (exists s, Decode t bitVec size = Some (s, Some InvalidVector))
  <-> Z.of_nat (length bitVec) <= Z.quot size 32.
Proof.
  unfold Decode. destruct (Z.leb_spec (Z.of_nat (length bitVec)) (Z.quot size 32)).
  - split; [done|]. intros _. by exists [].
  - split; [|lia]. intros [s Hs]. by apply decode_return_not_invalid in Hs.
Qed.

(** The loop of the decoder ends by itself: [size - i] iterations are
    enough, and more fuel does not change the way it is left. *)
Lemma decode_loop_fuel fuel1 fuel2 (t : Table) size i v bitVec bits n b :
  (Z.to_nat (size - i) ≤ fuel1)%nat -> (Z.to_nat (size - i) ≤ fuel2)%nat ->
  decode_loop fuel1 t size i v bitVec bits n b
  = decode_loop fuel2 t size i v bitVec bits n b.
Proof.
  revert fuel2 i v bitVec bits n b.
  induction fuel1 as [|fuel1 IH]; intros fuel2 i v bitVec bits n b H1 H2.
  - destruct fuel2 as [|fuel2]; simpl; [done|].
    destruct (Z.ltb_spec i size); [lia|done].
  - destruct fuel2 as [|fuel2]; simpl.
    + destruct (Z.ltb_spec i size); [lia|done].
    + destruct (Z.ltb_spec i size); [|done].
      destruct (32 <? n + 1); [done|].
      destruct (if Z.land (i + 1) 31 =? 0 then _ else _) as [[v' rest']|]; [|done].
      destruct (find_code t (n + 1) _); apply IH; lia.
Qed.

(* ===================================================================== *)
(** ** The decoding loop over the bits it reads *)
(* ===================================================================== *)

Lemma word_at_ok bitVec w : Forall word_ok bitVec -> word_ok (word_at bitVec w).
Proof.
  intros H. unfold word_at. destruct (bitVec !! w) as [x|] eqn:E; simpl.
  - by eapply Forall_lookup_1.
  - unfold word_ok. lia.
Qed.

(** The bit that the loop takes from [v]. *)
Lemma top_bit W o :
  word_ok W -> 0 <= o < 32 ->
  Z.shiftr (wrap32 (Z.shiftl W o)) 31 = Z.b2z (Z.testbit W (31 - o)).
Proof.
  intros HW Ho. unfold wrap32.
  assert (0 <= Z.shiftl W o mod 2 ^ 32 < 2 ^ 32) as Hv by (apply Z.mod_pos_bound; lia).
  replace (Z.testbit W (31 - o)) with (Z.testbit (Z.shiftl W o mod 2 ^ 32) 31).
  2:{ rewrite Z.mod_pow2_bits_low by lia. by rewrite Z.shiftl_spec by lia. }
  rewrite Z.testbit_spec' by lia. rewrite Z.shiftr_div_pow2 by lia.
  rewrite (Z.mod_small (_ / _)); [done|]. divmod.
Qed.

Lemma shl32_shifted W o :
  0 <= o -> shl32 (wrap32 (Z.shiftl W o)) 1 = wrap32 (Z.shiftl W (o + 1)).
Proof.
  intros Ho. unfold shl32, wrap32. change (1 <? 32) with true. cbv iota.
  rewrite !Z.shiftl_mul_pow2 by lia. rewrite Z.pow_add_r by lia.
  rewrite Z.mul_mod_idemp_l by lia. f_equal. lia.
Qed.

Lemma stream_cons bitVec i k :
  stream bitVec i (S k) = getbit bitVec i :: stream bitVec (i + 1) k.
Proof. done. Qed.

(** The loop on words agrees with the loop on bits: [v] holds the current
    word shifted by the bits already taken, [rest] the words after it. *)
Lemma decode_loop_bits fuel (t : Table) size bitVec i v rest bits n b :
  Forall word_ok bitVec ->
  size / 32 < Z.of_nat (length bitVec) ->
  0 <= i <= size ->
  (i < size ->
   v = wrap32 (Z.shiftl (word_at bitVec (Z.to_nat (i / 32))) (i mod 32)) /\
   rest = drop (S (Z.to_nat (i / 32))) bitVec) ->
  (Z.to_nat (size - i) ≤ fuel)%nat ->
  decode_loop fuel t size i v rest bits n b =
  decode_bits t (stream bitVec i (Z.to_nat (size - i))) bits n b.
Proof.
  intros Hok Hlen. revert i v rest bits n b.
  induction fuel as [|fuel IH]; intros i v rest bits n b Hi Hrep Hfuel.
  - replace (Z.to_nat (size - i)) with 0%nat by lia. done.
  - simpl decode_loop. destruct (Z.ltb_spec i size) as [Hlt|Hge].
    2:{ replace (Z.to_nat (size - i)) with 0%nat by lia. done. }
    destruct (Hrep Hlt) as [Hv Hrest]. clear Hrep.
    replace (Z.to_nat (size - i)) with (S (Z.to_nat (size - (i + 1)))) by lia.
    rewrite stream_cons. simpl decode_bits.
    assert (0 <= i mod 32 < 32) as Ho by divmod.
    assert (Z.shiftr v 31 = Z.b2z (getbit bitVec i)) as ->.
    { rewrite Hv. unfold getbit. apply top_bit; [by apply word_at_ok|done]. }
    destruct (32 <? n + 1); [done|].
    rewrite land_0x1F.
    assert (exists v' rest',
      (if (i + 1) mod 32 =? 0
       then match rest with [] => None | w :: rest0 => Some (w, rest0) end
       else Some (shl32 v 1, rest)) = Some (v', rest') /\
      v' = wrap32 (Z.shiftl (word_at bitVec (Z.to_nat ((i + 1) / 32))) ((i + 1) mod 32)) /\
      rest' = drop (S (Z.to_nat ((i + 1) / 32))) bitVec) as (v' & rest' & -> & Hv' & Hrest').
    { destruct (Z.eqb_spec ((i + 1) mod 32) 0) as [Hz|Hnz].
      - assert (Z.to_nat ((i + 1) / 32) = S (Z.to_nat (i / 32))) as Hw by divmod.
        assert (S (Z.to_nat (i / 32)) < length bitVec)%nat as Hin by divmod.
        destruct (lookup_lt_is_Some_2 _ _ Hin) as [w Hw'].
        rewrite Hrest, (drop_S _ w _ Hw').
        exists w, (drop (S (S (Z.to_nat (i / 32)))) bitVec).
        split; [done|]. rewrite Hz, Hw. split; [|done].
        unfold word_at. rewrite Hw'. simpl. rewrite Z.shiftl_0_r.
        unfold wrap32. rewrite Z.mod_small; [done|].
        by apply (Forall_lookup_1 _ _ _ _ Hok Hw').
      - exists (shl32 v 1), rest. split; [done|].
        assert ((i + 1) / 32 = i / 32) as -> by divmod.
        assert ((i + 1) mod 32 = i mod 32 + 1) as -> by divmod.
        split; [|done]. rewrite Hv. apply shl32_shifted. lia. }
    destruct (find_code t (n + 1) _); apply IH; try lia; intros _; done.
Qed.

(* ===================================================================== *)
(** ** The stream written by the encoder *)
(* ===================================================================== *)

Lemma lor_ok a b : word_ok a -> word_ok b -> word_ok (Z.lor a b).
Proof.
  unfold word_ok. intros Ha Hb.
  assert (Z.lor a b = Z.lor a b mod 2 ^ 32) as ->.
  { apply Z.bits_inj'. intros j Hj. destruct (Z.lt_ge_cases j 32).
    - by rewrite Z.mod_pow2_bits_low.
    - rewrite Z.mod_pow2_bits_high by lia.
      rewrite Z.lor_spec, (testbit_above a 32), (testbit_above b 32) by (done || lia).
      done. }
  apply Z.mod_pos_bound. lia.
Qed.

Lemma shr32_ok b k : 0 <= k -> word_ok b -> word_ok (shr32 b k).
Proof.
  unfold word_ok, shr32. intros Hk Hb. destruct (k <? 32); [|lia].
  rewrite Z.shiftr_div_pow2 by lia.
  assert (0 < 2 ^ k) by (apply Z.pow_pos_nonneg; lia).
  split; [apply Z.div_pos; lia|].
  apply Z.le_lt_trans with b; [|lia].
  apply Z.div_le_upper_bound; [done|]. nia.
Qed.

Lemma or_last_ok bitVec x :
  Forall word_ok bitVec -> word_ok x -> Forall word_ok (or_last bitVec x).
Proof.
  intros Hbv Hx. unfold or_last. apply Forall_alter; [done|].
  intros w _ Hw. by apply lor_ok.
Qed.

Lemma to_uint_nonneg x : 0 <= to_uint x.
Proof. unfold to_uint. apply Z.mod_pos_bound. lia. Qed.

Create HintDb words discriminated.
#[local] Hint Resolve lor_ok shr32_ok shl32_ok or_last_ok to_uint_nonneg
  Forall_app_2 Forall_singleton : words.

(** The words written by a step are 32-bit words. *)
Lemma encode_step_ok code bitVec size :
  Forall word_ok bitVec -> word_ok (Bits code) ->
  Forall word_ok (encode_step code bitVec size).1.
Proof.
  intros Hbv HB. unfold encode_step.
  destruct (_ <? _); simpl fst; auto 6 with words.
Qed.

(** One step appends the bits of the code to the stream. *)
Lemma encode_step_stream code bitVec size :
  0 <= size -> Z.of_nat (length bitVec) = size / 32 + 1 ->
  0 <= Size code <= 32 -> 0 <= Bits code < 2 ^ Size code ->
  (forall p, size <= p -> getbit bitVec p = false) ->
  stream (encode_step code bitVec size).1 0 (Z.to_nat (size + Size code))
  = stream bitVec 0 (Z.to_nat size) ++ code_bits code.
Proof.
  intros Hsize Hlen HL HB Hpad.
  replace (Z.to_nat (size + Size code))
    with (Z.to_nat size + Z.to_nat (Size code))%nat by lia.
  unfold stream, code_bits. rewrite bits_from_app. f_equal.
  - apply bits_from_ext. intros d Hd.
    rewrite encode_step_getbit by (done || lia).
    rewrite (testbit_above (Bits code) (Size code)) by (done || lia).
    by rewrite orb_false_r.
  - apply bits_from_ext. intros d Hd.
    rewrite encode_step_getbit by (done || lia).
    rewrite Hpad by lia. simpl orb. f_equal. lia.
Qed.

Lemma encode_loop_stream (t : Table) s bitVec size bitVec' size' :
  sizes_in 0 32 t = true -> bits_fit t = true ->
  encoder_inv bitVec size ->
  encode_loop t s bitVec size = Ok (bitVec', size') ->
  encoder_inv bitVec' size' /\
  exists cs, codes_of t s cs /\
    stream bitVec' 0 (Z.to_nat size')
    = stream bitVec 0 (Z.to_nat size) ++ concat (code_bits <$> cs).
Proof.
  intros Hsz Hfit. revert bitVec size.
  induction s as [|r s IH]; intros bitVec size Hinv Henc; simpl in Henc.
  - injection Henc as <- <-. split; [done|].
    exists []. split; [constructor|]. simpl. by rewrite app_nil_r.
  - destruct (t !! r) as [code|] eqn:Hr; [|done].
    destruct Hinv as (Hsize & Hlen & Hpad & Hok).
    pose proof (proj1 (sizes_in_spec _ _ _) Hsz _ _ Hr) as HL.
    pose proof (bits_fit_spec _ _ _ Hfit Hr) as HB.
    assert (word_ok (Bits code)) as HB32.
    { unfold word_ok. assert (2 ^ Size code <= 2 ^ 32) by (apply Z.pow_le_mono_r; lia). lia. }
    pose proof (encode_step_size code bitVec size) as E2.
    pose proof (encode_step_length code bitVec size Hsize Hlen HL) as E1.
    pose proof (fun pos => encode_step_padding code bitVec size pos Hsize
                  ltac:(divmod) ltac:(lia) Hpad) as E3.
    pose proof (encode_step_ok code bitVec size Hok HB32) as E4.
    pose proof (encode_step_stream code bitVec size Hsize Hlen HL HB Hpad) as E5.
    destruct (encode_step code bitVec size) as [bitVec1 size1].
    simpl in E1, E2, E3, E4, E5. subst size1.
    destruct (IH bitVec1 (size + Size code)) as (Hinv' & cs & Hcs & Hstream);
      [by unfold encoder_inv; auto with lia|done|].
    split; [done|]. exists (code :: cs). split; [by constructor|].
    rewrite Hstream, E5, fmap_cons. cbn [concat]. by rewrite <- app_assoc.
Qed.

(* ===================================================================== *)
(** ** Decoding the bits of one code *)
(* ===================================================================== *)

Lemma scan_Some order n bits r :
  scan order n bits = Some r ->
  exists c, (r, c) ∈ order /\ Size c = n /\ Bits c = bits.
Proof.
  unfold scan. intros H.
  destruct (find _ order) as [[r' c]|] eqn:E; [|done].
  simpl in H. injection H as ->.
  apply find_some in E as [Hin Hm]. simpl in Hm.
  apply list_elem_of_In in Hin.
  exists c. split; [done|]. lia.
Qed.

Lemma scan_None order n bits r c :
  scan order n bits = None -> (r, c) ∈ order ->
  ~ (Size c = n /\ Bits c = bits).
Proof.
  unfold scan. intros H Hc [Hs Hb].
  destruct (find _ order) as [[r' c']|] eqn:E; [done|].
  apply list_elem_of_In in Hc.
  apply (find_none _ _ E) in Hc. simpl in Hc. lia.
Qed.

Lemma find_code_Some (t : Table) n bits r :
  find_code t n bits = Some r ->
  exists c, t !! r = Some c /\ Size c = n /\ Bits c = bits.
Proof.
  intros H. apply scan_Some in H as (c & Hin & H).
  exists c. split; [by apply elem_of_map_to_list|done].
Qed.

Lemma find_code_None (t : Table) n bits r c :
  find_code t n bits = None -> t !! r = Some c ->
  ~ (Size c = n /\ Bits c = bits).
Proof.
  intros H Hc. apply (scan_None _ _ _ r c H). by apply elem_of_map_to_list.
Qed.

Lemma truncate_0 c : 0 <= Size c -> 0 <= Bits c < 2 ^ Size c -> truncate c 0 = 0.
Proof.
  intros HL HB. unfold truncate. rewrite Z.sub_0_r.
  rewrite Z.shiftr_div_pow2 by lia. by apply Z.div_small.
Qed.

Lemma truncate_bound c k :
  0 <= k <= Size c -> 0 <= Bits c < 2 ^ Size c -> 0 <= truncate c k < 2 ^ k.
Proof.
  intros Hk HB. unfold truncate. rewrite Z.shiftr_div_pow2 by lia.
  assert (0 < 2 ^ (Size c - k)) by (apply Z.pow_pos_nonneg; lia).
  split; [apply Z.div_pos; lia|].
  apply Z.div_lt_upper_bound; [done|].
  rewrite <- Z.pow_add_r by lia.
  replace (Size c - k + k) with (Size c) by lia. lia.
Qed.

(** Taking one more bit of a code. *)
Lemma truncate_step c k :
  0 <= k < Size c -> Size c <= 32 -> 0 <= Bits c < 2 ^ Size c ->
  Z.lor (shl32 (truncate c k) 1) (Z.b2z (Z.testbit (Bits c) (Size c - 1 - k)))
  = truncate c (k + 1).
Proof.
  intros Hk HL HB.
  pose proof (truncate_bound c k ltac:(lia) HB) as Hb.
  assert (2 ^ k <= 2 ^ 31) by (apply Z.pow_le_mono_r; lia).
  rewrite shl32_1 by lia. rewrite lor_double_bit.
  rewrite Z.testbit_spec' by lia.
  unfold truncate. rewrite !Z.shiftr_div_pow2 by lia.
  replace (Size c - k) with (Z.succ (Size c - 1 - k)) by lia.
  replace (Size c - (k + 1)) with (Size c - 1 - k) by lia.
  rewrite Z.pow_succ_r by lia.
  assert (0 < 2 ^ (Size c - 1 - k)) by (apply Z.pow_pos_nonneg; lia).
  rewrite (Z.mul_comm 2 (2 ^ _)), <- Z.div_div by lia.
  generalize (Bits c / 2 ^ (Size c - 1 - k)). intros x. divmod.
Qed.

(** From here on a table is fixed that is prefix-free, whose codes are
    between 1 and 32 bits long and fit in their length. *)
Section WellFormedTable.
Variable t : Table.
Hypothesis Hpf : prefix_free t.
Hypothesis Hsz : sizes_in 1 32 t = true.
Hypothesis Hfit : bits_fit t = true.

(** The first [k] bits of a code select an entry only when they are the
    whole code, and then they select its rune; this does not depend on the
    order of the scan. *)
Lemma find_code_prefix r c k :
  t !! r = Some c -> 0 <= k <= Size c ->
  find_code t k (truncate c k) = if decide (k = Size c) then Some r else None.
Proof.
  intros Hc Hk.
  assert (forall r' c', t !! r' = Some c' -> Size c' = k ->
            Bits c' = truncate c k -> r' = r) as Huniq.
  { intros r' c' Hc' Hs Hb.
    destruct (decide (r' = r)) as [|Hne]; [done|].
    exfalso. apply (Hpf r r' c c' (not_eq_sym Hne) Hc Hc').
    rewrite Hs, Z.min_r by lia. rewrite <- Hb.
    unfold truncate. rewrite Hs, Z.sub_diag. by rewrite Z.shiftr_0_r. }
  destruct (find_code t k (truncate c k)) as [r'|] eqn:E.
  - apply find_code_Some in E as (c' & Hc' & Hs & Hb).
    pose proof (Huniq _ _ Hc' Hs Hb) as ->.
    rewrite Hc in Hc'. injection Hc' as <-.
    by rewrite decide_True.
  - case_decide as Hkl; [|done].
    exfalso. apply (find_code_None _ _ _ _ _ E Hc). split; [done|].
    unfold truncate. rewrite Hkl, Z.sub_diag. by rewrite Z.shiftr_0_r.
Qed.

(** At most one rune has a given code, so the scan finds the same rune in
    whatever order the map is iterated. *)
Lemma scan_any_order order n bits :
  order ≡ₚ map_to_list t -> scan order n bits = find_code t n bits.
Proof.
  intros Hperm.
  assert (forall r1 r2 c1 c2, t !! r1 = Some c1 -> t !! r2 = Some c2 ->
            Size c1 = n -> Size c2 = n -> Bits c1 = bits -> Bits c2 = bits ->
            r1 = r2) as Huniq.
  { intros r1 r2 c1 c2 H1 H2 S1 S2 B1 B2.
    destruct (decide (r1 = r2)) as [|Hne]; [done|].
    exfalso. apply (Hpf r1 r2 c1 c2 Hne H1 H2).
    unfold truncate. by rewrite S1, S2, B1, B2. }
  destruct (scan order n bits) as [r|] eqn:E1;
    destruct (find_code t n bits) as [r'|] eqn:E2; [| | |done].
  - apply scan_Some in E1 as (c & Hin & Hs & Hb).
    rewrite Hperm in Hin. apply elem_of_map_to_list in Hin.
    apply find_code_Some in E2 as (c' & Hc' & Hs' & Hb').
    f_equal. by apply (Huniq r r' c c').
  - apply scan_Some in E1 as (c & Hin & Hs & Hb).
    rewrite Hperm in Hin. apply elem_of_map_to_list in Hin.
    by destruct (find_code_None _ _ _ _ _ E2 Hin).
  - apply find_code_Some in E2 as (c' & Hc' & Hs' & Hb').
    apply elem_of_map_to_list in Hc'. rewrite <- Hperm in Hc'.
    by destruct (scan_None _ _ _ _ _ E1 Hc').
Qed.

Lemma code_size r c : t !! r = Some c -> 1 <= Size c <= 32.
Proof. intros Hc. by apply (proj1 (sizes_in_spec _ _ _) Hsz _ _ Hc). Qed.

Lemma code_fits r c : t !! r = Some c -> 0 <= Bits c < 2 ^ Size c.
Proof. intros Hc. by apply (bits_fit_spec _ _ _ Hfit Hc). Qed.

(** Reading the last [m] bits of a code, after its first [k] bits, ends
    with its rune written and the accumulator reset. *)
Lemma decode_bits_code r c tail b (m : nat) :
  t !! r = Some c ->
  forall k, 0 <= k -> Z.of_nat m = Size c - k -> (0 < m)%nat ->
  decode_bits t
    (bits_from (fun j => Z.testbit (Bits c) (Size c - 1 - j)) k m ++ tail)
    (truncate c k) k b
  = decode_bits t tail 0 0 (b ++ encode_rune r).
Proof.
  intros Hc.
  pose proof (code_size r c Hc) as HL. pose proof (code_fits r c Hc) as HB.
  induction m as [|m IH]; intros k Hk Hm Hpos; [lia|].
  cbn [bits_from app decode_bits].
  rewrite truncate_step by lia.
  destruct (Z.ltb_spec 32 (k + 1)); [lia|].
  rewrite (find_code_prefix r c (k + 1)) by (done || lia).
  case_decide as Hend.
  - destruct m; [done|lia].
  - apply IH; lia.
Qed.

(** Reading the bits of a sequence of codes writes their runes. *)
Lemma decode_bits_codes s cs b :
  codes_of t s cs ->
  decode_bits t (concat (code_bits <$> cs)) 0 0 b
  = ExitDone (b ++ string_of_runes s) 0.
Proof.
  intros Hcs. revert b.
  induction Hcs as [|r c s cs Hc _ IH]; intros b.
  - simpl. by rewrite app_nil_r.
  - rewrite fmap_cons. cbn [concat].
    pose proof (code_size r c Hc) as HL. pose proof (code_fits r c Hc) as HB.
    pose proof (decode_bits_code r c (concat (code_bits <$> cs)) b
                  (Z.to_nat (Size c)) Hc 0) as Hcode.
    rewrite truncate_0 in Hcode by (lia || done).
    unfold code_bits at 1. rewrite Hcode by lia.
    rewrite IH. unfold string_of_runes. rewrite fmap_cons. cbn [concat].
    by rewrite <- app_assoc.
Qed.

(** Round trip for the table of this section, wherever it comes from:
    the runes encoded are written back. *)
Lemma roundtrip_loop s bitVec size :
  encode_loop t s [0] 0 = Ok (bitVec, size) ->
  Decode t bitVec size = Some (string_of_runes s, None).
Proof.
  intros Henc.
  assert (sizes_in 0 32 t = true) as Hsz0.
  { apply sizes_in_spec. intros r c Hc. pose proof (code_size r c Hc). lia. }
  destruct (encode_loop_stream t s [0] 0 bitVec size Hsz0 Hfit) as (Hinv & cs & Hcs & Hst);
    [|done|].
  { split; [lia|]. split; [reflexivity|]. split; [intros; apply getbit_initial|].
    apply Forall_singleton. unfold word_ok. lia. }
  destruct Hinv as (Hsize & Hlen & Hpad & Hok).
  unfold Decode. rewrite Z.quot_div_nonneg by lia.
  destruct (Z.leb_spec (Z.of_nat (length bitVec)) (size / 32)); [lia|].
  unfold decode_run. destruct bitVec as [|v rest]; [simpl in Hlen; divmod|].
  rewrite (decode_loop_bits _ t size (v :: rest) 0 v rest 0 0 []); try done; try lia.
  - rewrite Z.sub_0_r. simpl in Hst. rewrite Hst.
    rewrite decode_bits_codes with (s := s) by done. done.
  - intros _. split; [|done].
    change (0 / 32) with 0. change (0 mod 32) with 0. simpl.
    rewrite Z.shiftl_0_r. unfold wrap32. rewrite Z.mod_small; [done|].
    by apply Forall_cons_1 in Hok as [Hv _].
Qed.

Lemma roundtrip_table s bitVec size :
  Encode t s = Ok (bitVec, size) ->
  Decode t bitVec size = Some (string_of_runes s, None).
Proof.
  unfold Encode. destruct (decide _); [discriminate|]. apply roundtrip_loop.
Qed.

End WellFormedTable.

(* ===================================================================== *)
(** ** Built tables *)
(* ===================================================================== *)

Lemma BuildTable_sizes freq r c :
  BuildTable freq !! r = Some c ->
  0 <= Size c <= Z.of_nat (size freq) - 1 /\ ((2 ≤ size freq)%nat -> 1 <= Size c).
Proof.
  intros Hc. unfold BuildTable in Hc.
  apply table_sizes in Hc; [|apply fresh_new_codes].
  by rewrite length_sorted_codes in Hc.
Qed.

(** Code lengths are never negative. *)
Lemma BuildTable_sizes_nonneg freq : sizes_nonneg (BuildTable freq) = true.
Proof.
  apply all_codes_spec. intros r c Hc. apply BuildTable_sizes in Hc. lia.
Qed.

(** Up to 33 symbols, no code is longer than 32 bits. *)
Lemma BuildTable_sizes_in freq :
  (size freq ≤ 33)%nat -> sizes_in 0 32 (BuildTable freq) = true.
Proof.
  intros Hn. apply sizes_in_spec. intros r c Hc. apply BuildTable_sizes in Hc. lia.
Qed.

(** X1: for every probability map of 2 to 33 symbols, every code of the
    table built by [BuildTable] is between 1 and 32 bits long (a slice of
    [n >= 2] codes is split into two non-empty parts, so a code gets at
    least 1 and at most [n - 1] bits). *)
Lemma BuildTable_sizes_in_1 freq :
  (2 ≤ size freq ≤ 33)%nat -> sizes_in 1 32 (BuildTable freq) = true.
Proof.
  intros Hn. apply sizes_in_spec. intros r c Hc. apply BuildTable_sizes in Hc. lia.
Qed.

Lemma BuildTable_sizes_in_1_witness : sizes_in 1 32 (BuildTable freq2) = true.
Proof.
  apply (BuildTable_sizes_in_1 freq2). vm_compute. lia.
Defined.

(** Built tables in any order: Go iterates the map in an unspecified
    order and [sort.Slice] is not stable, so the slice that enters [divide]
    may be any sorted permutation of the entries.  The results below hold
    for every list of fresh codes. *)
Section AnyOrder.
Variable codes : list Code.
Hypothesis Hfresh : fresh codes.

Lemma any_order_bits_fit :
  sizes_in 0 32 (make_table (divide codes)) = true ->
  bits_fit (make_table (divide codes)) = true.
Proof.
  intros Hsz. apply all_codes_spec. intros r c Hc.
  pose proof (proj1 (sizes_in_spec _ _ _) Hsz _ _ Hc) as HL.
  apply table_entry in Hc as (i & path & _ & _ & _ & Hs & Hb); [|done].
  rewrite Hb, Hs by lia. pose proof (bits_val_bound path). lia.
Qed.

Lemma any_order_prefix_free :
  sizes_in 0 32 (make_table (divide codes)) = true ->
  prefix_free (make_table (divide codes)).
Proof.
  intros Hsz r1 r2 c1 c2 Hne H1 H2.
  pose proof (proj1 (sizes_in_spec _ _ _) Hsz _ _ H1) as Hs1.
  pose proof (proj1 (sizes_in_spec _ _ _) Hsz _ _ H2) as Hs2.
  apply (table_prefix_free codes r1 r2 c1 c2); [done|done|done|done|lia|lia].
Qed.

Lemma any_order_roundtrip s bitVec size :
  sizes_in 1 32 (make_table (divide codes)) = true ->
  Encode (make_table (divide codes)) s = Ok (bitVec, size) ->
  Decode (make_table (divide codes)) bitVec size = Some (string_of_runes s, None).
Proof.
  intros Hsz Henc.
  assert (sizes_in 0 32 (make_table (divide codes)) = true) as Hsz0.
  { apply sizes_in_spec. intros r c Hc.
    apply (proj1 (sizes_in_spec _ _ _) Hsz) in Hc. lia. }
  apply roundtrip_table;
    [by apply any_order_prefix_free|done|by apply any_order_bits_fit|done].
Qed.

End AnyOrder.

(* ===================================================================== *)
(** ** The codes of at most 32 bits of any table *)
(* ===================================================================== *)

Lemma short_codes_lookup (t : Table) r c :
  short_codes t !! r = Some c <-> t !! r = Some c /\ 1 <= Size c <= 32.
Proof. unfold short_codes. by rewrite map_lookup_filter_Some. Qed.

Lemma codes_in_spec lo hi (t : Table) rs :
  codes_in lo hi t rs = true
  <-> Forall (fun r => exists c, t !! r = Some c /\ lo <= Size c <= hi) rs.
Proof.
  unfold codes_in. rewrite forallb_forall, Forall_forall. split.
  - intros H r Hr. apply list_elem_of_In, H in Hr.
    destruct (t !! r) as [c|]; [|done]. exists c. split; [done|lia].
  - intros H r Hr. apply list_elem_of_In, H in Hr as (c & -> & Hc). lia.
Qed.

Lemma short_sizes (t : Table) : sizes_in 1 32 (short_codes t) = true.
Proof. apply sizes_in_spec. by intros r c [_ ?]%short_codes_lookup. Qed.

(** The loop of [Encode] only looks up the runes it is given. *)
Lemma encode_loop_short (t : Table) rs bitVec size :
  codes_in 1 32 t rs = true ->
  encode_loop (short_codes t) rs bitVec size = encode_loop t rs bitVec size.
Proof.
  rewrite codes_in_spec. intros H. revert bitVec size.
  induction H as [|r rs (c & Hc & Hs) _ IH]; intros bitVec size; [done|].
  simpl. rewrite Hc, (proj2 (short_codes_lookup t r c)) by done.
  destruct (encode_step c bitVec size). apply IH.
Qed.

(** The loop of [Decode] consults the table for lengths from 1 to 32
    only. *)
Lemma decode_loop_ext fuel (t t' : Table) size i v rest bits n b :
  (forall m x, 1 <= m <= 32 -> find_code t m x = find_code t' m x) ->
  0 <= n ->
  decode_loop fuel t size i v rest bits n b
  = decode_loop fuel t' size i v rest bits n b.
Proof.
  intros Hfind. revert i v rest bits n b.
  induction fuel as [|fuel IH]; intros i v rest bits n b Hn; simpl; [done|].
  destruct (i <? size); [|done].
  destruct (Z.ltb_spec 32 (n + 1)); [done|].
  destruct (if Z.land (i + 1) 31 =? 0 then _ else _) as [[v' rest']|]; [|done].
  rewrite (Hfind (n + 1)) by lia.
  destruct (find_code t' (n + 1) _); apply IH; lia.
Qed.

Lemma Decode_ext (t t' : Table) bitVec size :
  (forall m x, 1 <= m <= 32 -> find_code t m x = find_code t' m x) ->
  Decode t bitVec size = Decode t' bitVec size.
Proof.
  intros Hfind. unfold Decode, decode_run.
  destruct (_ <=? _); [done|]. destruct bitVec as [|v rest]; [done|].
  by rewrite (decode_loop_ext _ t t').
Qed.

(** When the codes of 1 to 32 bits are prefix-free, the scan finds among
    them what it finds in the whole table. *)
Lemma find_code_short (t : Table) n bits :
  prefix_free (short_codes t) -> 1 <= n <= 32 ->
  find_code t n bits = find_code (short_codes t) n bits.
Proof.
  intros Hpf Hn.
  destruct (find_code t n bits) as [r|] eqn:E1;
    destruct (find_code (short_codes t) n bits) as [r'|] eqn:E2; [| | |done].
  - apply find_code_Some in E1 as (c & Hc & Hs & Hb).
    apply find_code_Some in E2 as (c' & Hc' & Hs' & Hb').
    assert (short_codes t !! r = Some c) as Hcs by (apply short_codes_lookup; split; [done|lia]).
    f_equal. destruct (decide (r = r')) as [|Hne]; [done|].
    exfalso. apply (Hpf r r' c c' Hne Hcs Hc').
    unfold truncate. by rewrite Hs, Hs', Hb, Hb'.
  - apply find_code_Some in E1 as (c & Hc & Hs & Hb).
    assert (short_codes t !! r = Some c) as Hcs by (apply short_codes_lookup; split; [done|lia]).
    by destruct (find_code_None _ _ _ _ _ E2 Hcs).
  - apply find_code_Some in E2 as (c' & [Hc' _]%short_codes_lookup & Hs' & Hb').
    by destruct (find_code_None _ _ _ _ _ E1 Hc').
Qed.

(** In a table built from fresh codes, in any order and however many,
    the codes of 1 to 32 bits are prefix-free and fit in their length, and
    a sequence of runes that have such codes is decoded back. *)
Lemma short_prefix_free codes :
  fresh codes -> prefix_free (short_codes (make_table (divide codes))).
Proof.
  intros Hfresh r1 r2 c1 c2 Hne [H1 S1]%short_codes_lookup [H2 S2]%short_codes_lookup.
  apply (table_prefix_free codes r1 r2 c1 c2); [done|done|done|done|lia|lia].
Qed.

Lemma short_bits_fit codes :
  fresh codes -> bits_fit (short_codes (make_table (divide codes))) = true.
Proof.
  intros Hfresh. apply all_codes_spec. intros r c [Hc HL]%short_codes_lookup.
  apply table_entry in Hc as (i & path & _ & _ & _ & Hs & Hb); [|done].
  rewrite Hb, Hs by lia. pose proof (bits_val_bound path). lia.
Qed.

Lemma short_roundtrip codes rs bitVec size :
  fresh codes ->
  codes_in 1 32 (make_table (divide codes)) rs = true ->
  Encode (make_table (divide codes)) rs = Ok (bitVec, size) ->
  Decode (make_table (divide codes)) bitVec size = Some (string_of_runes rs, None).
Proof.
  intros Hfresh Hrs Henc. unfold Encode in Henc.
  destruct (decide _); [discriminate|].
  rewrite <- encode_loop_short in Henc by done.
  rewrite (Decode_ext _ (short_codes (make_table (divide codes)))).
  - apply roundtrip_loop;
      [by apply short_prefix_free|apply short_sizes|by apply short_bits_fit|done].
  - intros m x Hm. apply find_code_short; [by apply short_prefix_free|done].
Qed.

(* ===================================================================== *)
(** ** Round trip *)
(* ===================================================================== *)

(** C1 (as amended): for every table built by [BuildTable] (hence by either
    convenience constructor) and every string that is valid UTF-8 and
    whose runes all have codes of 1 to 32 bits in the table, whenever
    [Encode] of the string succeeds, [Decode] of its output returns exactly
    that string and no error.  By [BuildTable_sizes_in_1] every code of a
    table built from 2 to 33 symbols is that long. *)
Theorem BuildTable_roundtrip (freq : gmap Z float) (s bitVec : list Z) (size : Z) :
  ValidString s = true ->
  codes_in 1 32 (BuildTable freq) (range_runes s) = true ->
  Encode (BuildTable freq) (range_runes s) = Ok (bitVec, size) ->
  Decode (BuildTable freq) bitVec size = Some (s, None).
Proof.
  unfold BuildTable. intros Hvalid Hsz Henc.
  rewrite <- (ValidString_roundtrip s Hvalid).
  apply (short_roundtrip (sort_codes (new_codes freq))).
  - apply fresh_new_codes.
  - exact Hsz.
  - exact Henc.
Qed.

(** The string "ABA" in the table of the 34 symbols of [freq34], where
    'A' and 'B' have the codes 0 and 10 and other symbols have codes of 33
    bits. *)
Lemma BuildTable_roundtrip_witness :
  Decode (BuildTable freq34) [0x40000000] 4 = Some ([65; 66; 65], None).
Proof.
  apply (BuildTable_roundtrip freq34 [65; 66; 65] [0x40000000] 4).
  - vm_compute. reflexivity.
  - vm_compute. reflexivity.
  - vm_compute. reflexivity.
Defined.

(** C1 fails as stated: the table built from the string "a" has the single
    code of length 0; "a" is encoded in 0 bits and decoded as the empty
    string. *)
Lemma roundtrip_single_symbol :
  range_runes [97] = [97] /\
  BuildTableFromString [97] !! 97 = Some (mkCode 97 1%float 0 0) /\
  Encode (BuildTableFromString [97]) [97] = Ok ([0], 0) /\
  Decode (BuildTableFromString [97]) [0] 0 = Some ([], None).
Proof. vm_compute. repeat split. Qed.

(** It fails too for a string that is not valid UTF-8: the [range]
    clause of [Encode] reads each of the two bytes 0xFF of "\xff\xffa" as
    U+FFFD, the table built from the string has the two symbols U+FFFD and
    'a' with codes of 1 bit, and [Decode] writes U+FFFD as the three bytes
    EF BF BD: the string returned has 7 bytes, not 3. *)
Lemma roundtrip_invalid_utf8 :
  ValidString str_bad = false /\
  range_runes str_bad = [0xFFFD; 0xFFFD; 97] /\
  sizes_in 1 32 (BuildTableFromString str_bad) = true /\
  Encode (BuildTableFromString str_bad) (range_runes str_bad) = Ok ([0x20000000], 3) /\
  Decode (BuildTableFromString str_bad) [0x20000000] 3
  = Some ([0xEF; 0xBF; 0xBD; 0xEF; 0xBF; 0xBD; 97], None).
Proof. vm_compute. repeat split. Qed.

(** In general [Decode] returns the runes that were encoded, written as
    UTF-8. *)
Lemma BuildTable_roundtrip_runes (freq : gmap Z float) (rs bitVec : list Z) (size : Z) :
  sizes_in 1 32 (BuildTable freq) = true ->
  Encode (BuildTable freq) rs = Ok (bitVec, size) ->
  Decode (BuildTable freq) bitVec size = Some (string_of_runes rs, None).
Proof.
  unfold BuildTable. intros Hsz Henc.
  by apply (any_order_roundtrip (sort_codes (new_codes freq)));
    [apply fresh_new_codes| |].
Qed.

(** The round trip fails as well once a code is longer than 32 bits: with
    the 34 symbols of [freq34] the rune 97 has the 33-bit code 1...10,
    stored as [0xFFFFFFFE]; its encoding is decoded as the runes 65, 96. *)
Lemma roundtrip_long_code :
  BuildTable freq34 !! 97 = Some (mkCode 97 68%float 0xFFFFFFFE 33) /\
  Encode (BuildTable freq34) [97] = Ok ([0x7FFFFFFF; 0], 33) /\
  Decode (BuildTable freq34) [0x7FFFFFFF; 0] 33 = Some ([65; 96], None).
Proof. vm_compute. repeat split. Qed.

(* ===================================================================== *)
(** ** Prefix-freeness *)
(* ===================================================================== *)

(** C2 (as amended): every table built by [BuildTable] in which no code is
    longer than 32 bits is prefix-free: two distinct entries differ once
    both are cut to the shorter of their two lengths.  By
    [BuildTable_sizes_in] this covers every map of at most 33 symbols. *)
Theorem BuildTable_prefix_free (freq : gmap Z float) :
  sizes_in 0 32 (BuildTable freq) = true -> prefix_free (BuildTable freq).
Proof.
  unfold BuildTable. intros Hsz.
  apply (any_order_prefix_free (sort_codes (new_codes freq))).
  - apply fresh_new_codes.
  - exact Hsz.
Qed.

Lemma BuildTable_prefix_free_witness : prefix_free (BuildTable freq2).
Proof.
  apply (BuildTable_prefix_free freq2). vm_compute. reflexivity.
Defined.

(** C2 fails as stated: in the table of [freq34] the code of rune 65 is the
    single bit 0 and the 33-bit code of rune 97, whose bits have overflowed
    the 32-bit field, starts with 0 as well. *)
Lemma prefix_free_overflow : ~ prefix_free (BuildTable freq34).
Proof.
  intros H.
  apply (H 65 97 (mkCode 65 100%float 0 1) (mkCode 97 68%float 0xFFFFFFFE 33)).
  - done.
  - vm_compute. reflexivity.
  - vm_compute. reflexivity.
  - vm_compute. reflexivity.
Qed.

(* ===================================================================== *)
(** ** The scenario "aab" *)
(* ===================================================================== *)

(** C3 (as amended): the table built from "aab" gives 'a' the 1-bit code 0
    and 'b' the 1-bit code 1; encoding "aab" yields 3 bits (the word
    [0x20000000]), and decoding that output returns "aab".  (The string is
    ASCII: its runes are its bytes.) *)
Theorem scenario_aab :
  range_runes str_aab = str_aab /\
  BuildTableFromString str_aab !! 97
    = Some (mkCode 97 (PrimFloat.div 2 3) 0 1) /\
  BuildTableFromString str_aab !! 98
    = Some (mkCode 98 (PrimFloat.div 1 3) 1 1) /\
  Encode (BuildTableFromString str_aab) str_aab = Ok ([0x20000000], 3) /\
  Decode (BuildTableFromString str_aab) [0x20000000] 3 = Some (str_aab, None).
Proof. vm_compute. repeat split. Qed.

(** C3 fails as stated: 'b' does not get a 2-bit code and the total is not
    4 bits. *)
Lemma scenario_aab_not_4_bits :
  ~ (exists ca cb bitVec,
       BuildTableFromString str_aab !! 97 = Some ca /\ Size ca = 1 /\
       BuildTableFromString str_aab !! 98 = Some cb /\ Size cb = 2 /\
       Encode (BuildTableFromString str_aab) str_aab = Ok (bitVec, 4)).
Proof.
  intros (ca & cb & bitVec & _ & _ & _ & _ & Henc).
  vm_compute in Henc. discriminate Henc.
Qed.

(* ===================================================================== *)
(** ** Negative probabilities *)
(* ===================================================================== *)

(** C4 (as amended): [BuildTable] validates nothing and never fails: for
    every probability map, whatever the sign or the sum of its values, it
    returns a table with exactly the symbols of the map. *)
Theorem BuildTable_total (freq : gmap Z float) :
  dom (BuildTable freq) = dom freq.
Proof.
  unfold BuildTable. rewrite make_table_dom, divide_Char.
  apply set_eq. intros r. rewrite elem_of_list_to_set, elem_of_dom.
  rewrite sort_codes_perm. unfold new_codes. rewrite <- list_fmap_compose.
  rewrite list_elem_of_fmap. split.
  - intros ([r' p] & -> & Hin). apply elem_of_map_to_list in Hin. by exists p.
  - intros [p Hp]. exists (r, p). split; [done|]. by apply elem_of_map_to_list.
Qed.

(** C4 fails as stated: a map with a negative probability is accepted and
    a table is returned. *)
Lemma BuildTable_negative :
  BuildTable {[97 := (-1)%float]} = {[97 := mkCode 97 (-1)%float 0 0]}.
Proof. vm_compute. reflexivity. Qed.

(* ===================================================================== *)
(** ** The packing rule of the encoder *)
(* ===================================================================== *)

(** C5 (as amended): a step of [Encode] for a code of length [L] (at most
    32) follows the packing rule with a strict comparison: if
    [L < remaining] the code is shifted left by [remaining - L] and ORed
    into the last word and no word is appended; if [L >= remaining] the
    code is shifted right by [L - remaining] and ORed into the last word,
    and a new word is appended that holds the low [L - remaining] bits of
    the code in its most significant positions (a zero word when
    [L = remaining]); the size grows by [L]. *)
Theorem encode_step_packing (code : Code) (bitVec : list Z) (size : Z) :
  word_ok (Bits code) -> 0 <= Size code <= 32 ->
  encode_step code bitVec size = (strict_pack code bitVec size, size + Size code).
Proof.
  intros HB HL. unfold encode_step, strict_pack, pack. rewrite land_0x1F.
  assert (0 <= size mod 32 < 32) as Hn by divmod.
  destruct (Z.ltb_spec (size mod 32 + Size code) 0x20) as [Hfit|Hspan];
    destruct (Z.ltb_spec (Size code) (32 - size mod 32)); try lia.
  - rewrite to_uint_small by lia. unfold shl32.
    replace (0x20 - size mod 32 - Size code) with (32 - size mod 32 - Size code) by lia.
    destruct (Z.ltb_spec (32 - size mod 32 - Size code) 32); [done|].
    do 2 f_equal. unfold wrap32.
    replace (32 - size mod 32 - Size code) with 32 by lia.
    rewrite Z.shiftl_mul_pow2 by lia. by rewrite Z.mod_mul.
  - replace (Size code - (0x20 - size mod 32))
      with (Size code - (32 - size mod 32)) by lia.
    rewrite !to_uint_small by lia. unfold shr32, shl32.
    destruct (Z.ltb_spec (Size code - (32 - size mod 32)) 32); [|lia].
    destruct (Z.ltb_spec (0x20 - (Size code - (32 - size mod 32))) 32) as [|Hz]; [done|].
    do 3 f_equal. unfold wrap32.
    replace (32 - (Size code - (32 - size mod 32))) with 32 by lia.
    rewrite Z.shiftl_mul_pow2 by lia. by rewrite Z.mod_mul.
Qed.

Lemma encode_step_packing_witness :
  encode_step (mkCode 97 (PrimFloat.div 2 3) 0 1) [0] 31 = ([0; 0], 32).
Proof.
  apply (encode_step_packing (mkCode 97 (PrimFloat.div 2 3) 0 1) [0] 31).
  - unfold word_ok. simpl. lia.
  - simpl. lia.
Defined.

(** C5 fails as stated: in the table built from "aab" the code of 'a' is
    the single bit 0; after 31 of them the last word has exactly one bit
    left, the 32nd 'a' fits ([L = remaining = 1]), and yet a word is
    appended, where the rule as stated appends none. *)
Lemma packing_exact_fit :
  BuildTableFromString str_aab !! 97 = Some (mkCode 97 (PrimFloat.div 2 3) 0 1) /\
  Encode (BuildTableFromString str_aab) (replicate 31 97) = Ok ([0], 31) /\
  Encode (BuildTableFromString str_aab) (replicate 32 97) = Ok ([0; 0], 32) /\
  (encode_step (mkCode 97 (PrimFloat.div 2 3) 0 1) [0] 31).1 = [0; 0] /\
  spec_pack (mkCode 97 (PrimFloat.div 2 3) 0 1) [0] 31 = [0].
Proof. vm_compute. repeat split. Qed.

(* ===================================================================== *)
(** ** The pivot search *)
(* ===================================================================== *)

(** C6 (as amended): for every slice of length at least 2 that [divide]
    partitions, the pivot is the one of the greedy scan that starts with
    [left = probability[0]], [p = 1] and the best difference 1.0, computes
    [diff = |(total - left) - left|], and, while [p < length - 1], accepts
    when [diff] is smaller than the best difference (then adds
    [probability[p]] to [left] and advances [p]) and otherwise stops at the
    current [p]; so [1 <= p < length], and the slice is split there. *)
Theorem pivot_is_bounded_scan (codes : list Code) :
  (2 ≤ length codes)%nat ->
  let p := bounded_pivot (Prob <$> codes) in
  pivot codes = p /\ (1 ≤ p < length codes)%nat /\
  divide codes = divide (assign_bit false <$> take p codes)
                   ++ divide (assign_bit true <$> drop p codes).
Proof.
  intros Hlen p. subst p. rewrite <- pivot_scan.
  pose proof (pivot_bounds codes Hlen).
  split; [done|]. split; [lia|].
  rewrite divide_eq at 1.
  destruct (Nat.ltb_spec (length codes) 2); [lia|done].
Qed.

Lemma pivot_is_bounded_scan_witness :
  pivot (sort_codes (new_codes freq2)) = 1%nat.
Proof.
  apply (pivot_is_bounded_scan (sort_codes (new_codes freq2))).
  vm_compute. lia.
Defined.

(** C6 fails as stated: for five symbols of weight 4 the total is 20 and
    the first difference is 12.  The scan as stated accepts it (no
    difference has been seen before), then accepts 4 and stops at
    [p = 3]; the code compares 12 with the initial bound 1.0 and stops at
    [p = 1]. *)
Lemma pivot_unnormalised :
  Prob <$> sort_codes (new_codes freq5) = replicate 5 4%float /\
  pivot (sort_codes (new_codes freq5)) = 1%nat /\
  spec_pivot (Prob <$> sort_codes (new_codes freq5)) = 3%nat.
Proof. vm_compute. repeat split. Qed.

(** The way the difference is computed matters as well: for five symbols
    of weight 1/3 the first difference is 1 in exact arithmetic; computed
    as [|(total - left) - left|] it is 1.0 and the scan of the code stops
    at [p = 1], computed as [|total - 2*left|] it is rounded below 1.0 and
    a scan with the same initial bound 1.0 goes on to [p = 3]. *)
Lemma pivot_rounding :
  Prob <$> sort_codes (new_codes freq_thirds) = replicate 5 (PrimFloat.div 1 3) /\
  pivot (sort_codes (new_codes freq_thirds)) = 1%nat /\
  greedy_pivot spec_dist (Some 1%float) (Prob <$> sort_codes (new_codes freq_thirds))
    = 3%nat.
Proof. vm_compute. repeat split. Qed.

(* ===================================================================== *)
(** ** Errors of the decoder *)
(* ===================================================================== *)

(** C7: [Decode] fails with InvalidVector exactly when the vector does not
    hold strictly more words than [size / 32] (Go's integer division),
    that is unless [len(bitVec) >= size/32 + 1]; the check comes first and
    the string returned with the error is empty. *)
Theorem Decode_storage_check (t : Table) (bitVec : list Z) (size : Z) (s : list Z) :
  Decode t bitVec size = Some (s, Some InvalidVector)
  <-> s = [] /\ ~ (Z.of_nat (length bitVec) >= Z.quot size 32 + 1).
Proof.
  unfold Decode.
  destruct (Z.leb_spec (Z.of_nat (length bitVec)) (Z.quot size 32)) as [Hle|Hgt].
  - split.
    + intros H. injection H as <-. split; [done|lia].
    + intros [-> _]. done.
  - split.
    + intros H. by apply decode_return_not_invalid in H.
    + intros [_ H]. lia.
Qed.

(** C8: the code does not return the partial result with every error.
    With the table [table_a] ('a' has the 1-bit code 0) and the stream 0
    followed by 33 ones, [Decode] writes 'a' to its buffer and then runs
    into NoMatchingCode at line 217, which returns the empty string: the
    rune decoded before the failure is dropped.  The sibling return of
    line 242 does return the buffer: with the same table and vector and
    the bit count 3 the result is "a" with TrailingBits. *)
Lemma Decode_drops_partial_result :
  decoded_so_far (decode_run table_a [0x7FFFFFFF; 0xC0000000] 34) = [97] /\
  Decode table_a [0x7FFFFFFF; 0xC0000000] 34 = Some ([], Some NoMatchingCode) /\
  Decode table_a [0x7FFFFFFF; 0xC0000000] 3 = Some ([97], Some TrailingBits).
Proof. vm_compute. repeat split. Qed.

(** The same with a built table and an encoded vector: in the table of
    [freq34] the rune 98 has a 33-bit code stored as [0xFFFFFFFF]; the
    string of two such runes is encoded in 66 bits, and decoding them finds
    the rune 65 and then fails, returning nothing. *)
Lemma Decode_drops_partial_result_built :
  Encode (BuildTable freq34) [98; 98]
    = Ok ([0x7FFFFFFF; 0xBFFFFFFF; 0xC0000000], 66) /\
  decoded_so_far
    (decode_run (BuildTable freq34) [0x7FFFFFFF; 0xBFFFFFFF; 0xC0000000] 66) = [65] /\
  Decode (BuildTable freq34) [0x7FFFFFFF; 0xBFFFFFFF; 0xC0000000] 66
    = Some ([], Some NoMatchingCode).
Proof. vm_compute. repeat split. Qed.

(* ===================================================================== *)
(** ** Padding and length of the encoded vector *)
(* ===================================================================== *)

(** C9: after a successful [Encode], every bit of the vector at a position
    at or beyond the returned size is zero (positions count from the most
    significant bit of word 0; beyond the last word there is nothing).
    Code lengths are bit counts, hence not negative; for built tables this
    is [BuildTable_sizes_nonneg]. *)
Theorem Encode_zero_padding (t : Table) (s bitVec : list Z) (size : Z) :
  sizes_nonneg t = true ->
  Encode t s = Ok (bitVec, size) ->
  forall pos, size <= pos -> getbit bitVec pos = false.
Proof.
  intros Ht Henc. unfold Encode in Henc.
  destruct (decide _) as [Hempty|Hempty]; [discriminate|].
  apply (encode_loop_padding t s [0] 0 bitVec size Ht); try done.
  intros p _. apply getbit_initial.
Qed.

Lemma Encode_zero_padding_witness : getbit [0x20000000] 3 = false.
Proof.
  apply (Encode_zero_padding (BuildTable freq2) str_aab [0x20000000] 3).
  - vm_compute. reflexivity.
  - vm_compute. reflexivity.
  - lia.
Defined.

(** C10 (as amended): for every table in which no code is longer than 32
    bits, a successful [Encode] returns a vector of exactly [size/32 + 1]
    words, which therefore passes the storage check of [Decode]. *)
Theorem Encode_length (t : Table) (s bitVec : list Z) (size : Z) :
  sizes_in 0 32 t = true ->
  Encode t s = Ok (bitVec, size) ->
  0 <= size /\
  Z.of_nat (length bitVec) = size / 32 + 1 /\
  Z.quot size 32 < Z.of_nat (length bitVec) /\
  forall s', Decode t bitVec size ≠ Some (s', Some InvalidVector).
Proof.
  intros Ht Henc. unfold Encode in Henc.
  destruct (decide _) as [Hempty|Hempty]; [discriminate|].
  destruct (encode_loop_length t s [0] 0 bitVec size Ht) as [Hsize Hlen]; try done.
  assert (Z.quot size 32 < Z.of_nat (length bitVec)) as Hq
    by (rewrite Z.quot_div_nonneg by lia; lia).
  repeat split; try done.
  intros s' Hs'.
  assert (exists x, Decode t bitVec size = Some (x, Some InvalidVector)) as Hex by eauto.
  apply Decode_invalid_iff in Hex. lia.
Qed.

Lemma Encode_length_witness :
  0 <= 3 /\
  Z.of_nat (length [0x20000000]) = 3 / 32 + 1 /\
  Z.quot 3 32 < Z.of_nat (length [0x20000000]) /\
  forall s', Decode (BuildTable freq2) [0x20000000] 3 ≠ Some (s', Some InvalidVector).
Proof.
  apply (Encode_length (BuildTable freq2) str_aab [0x20000000] 3).
  - vm_compute. reflexivity.
  - vm_compute. reflexivity.
Defined.

(** C10 fails as stated: in the table of [freq34] the rune 95 has a 31-bit
    code and the rune 97 a 33-bit code; their encoding has 64 bits in 2
    words, not in 64/32 + 1 = 3, and [Decode] rejects it. *)
Lemma Encode_length_long_code :
  BuildTable freq34 !! 95 = Some (mkCode 95 70%float 0x7FFFFFFE 31) /\
  BuildTable freq34 !! 97 = Some (mkCode 97 68%float 0xFFFFFFFE 33) /\
  Encode (BuildTable freq34) [95; 97] = Ok ([0xFFFFFFFC; 0xFFFFFFFE], 64) /\
  Decode (BuildTable freq34) [0xFFFFFFFC; 0xFFFFFFFE] 64
    = Some ([], Some InvalidVector).
Proof. vm_compute. repeat split. Qed.

(** * Part III: further properties of the package *)

(* ===================================================================== *)
(** ** The errors of [Encode] *)
(* ===================================================================== *)

Lemma encode_loop_covered (t : Table) s bitVec size :
  covered t s -> exists bitVec' size', encode_loop t s bitVec size = Ok (bitVec', size').
Proof.
  intros Hcov. revert bitVec size.
  induction Hcov as [|r s [code Hr] _ IH]; intros bitVec size; simpl.
  - by exists bitVec, size.
  - rewrite Hr. destruct (encode_step code bitVec size) as [bitVec1 size1]. apply IH.
Qed.

Lemma encode_loop_Ok_covered (t : Table) s bitVec size bitVec' size' :
  encode_loop t s bitVec size = Ok (bitVec', size') -> covered t s.
Proof.
  revert bitVec size. induction s as [|r s IH]; intros bitVec size H; simpl in H.
  - constructor.
  - destruct (t !! r) as [code|] eqn:Hr; [|done].
    destruct (encode_step code bitVec size) as [bitVec1 size1].
    constructor; [by rewrite Hr|]. by eapply IH.
Qed.

(** The loop fails only at a rune without entry, the first one. *)
Lemma encode_loop_Err (t : Table) s bitVec size e :
  encode_loop t s bitVec size = Err e <->
  exists r s1 s2, e = UnknownSymbol r /\ s = s1 ++ r :: s2 /\
                  covered t s1 /\ t !! r = None.
Proof.
  revert bitVec size. induction s as [|r s IH]; intros bitVec size; simpl.
  - split; [done|]. intros (r & s1 & s2 & _ & Hs & _). by destruct s1.
  - destruct (t !! r) as [code|] eqn:Hr.
    + destruct (encode_step code bitVec size) as [bitVec1 size1].
      rewrite IH. split.
      * intros (r' & s1 & s2 & -> & -> & Hcov & Hr').
        exists r', (r :: s1), s2. repeat split; [|done].
        constructor; [by rewrite Hr|done].
      * intros (r' & s1 & s2 & -> & Hs & Hcov & Hr').
        destruct s1 as [|x s1]; simpl in Hs; injection Hs as -> ->.
        { congruence. }
        apply Forall_cons_1 in Hcov as [_ Hcov]. by exists r', s1, s2.
    + split.
      * intros H. injection H as <-. exists r, [], s. repeat split; [constructor|done].
      * intros (r' & s1 & s2 & -> & Hs & Hcov & Hr').
        destruct s1 as [|x s1]; simpl in Hs; injection Hs as -> ->; [done|].
        apply Forall_cons_1 in Hcov as [[c Hc] _]. congruence.
Qed.

(** X2: [Encode] returns the EmptyTable error exactly for the empty table,
    whatever the string (the empty string included); the test comes
    before any rune is looked up. *)
Theorem Encode_EmptyTable_iff (t : Table) (s : list Z) :
  Encode t s = Err EmptyTable <-> t = ∅.
Proof.
  unfold Encode. destruct (decide (size t = 0%nat)) as [Hz|Hnz].
  - split; [|done]. intros _. by apply map_size_empty_iff.
  - split.
    + intros H. apply encode_loop_Err in H as (r & _ & _ & H & _). discriminate H.
    + intros ->. by rewrite map_size_empty in Hnz.
Qed.

(** X3: [Encode] returns the UnknownSymbol error for the rune [r] exactly
    when the table is not empty and [r] is the first rune of the string
    that has no entry. *)
Theorem Encode_UnknownSymbol_iff (t : Table) (s : list Z) (r : Z) :
  Encode t s = Err (UnknownSymbol r) <->
  t ≠ ∅ /\ exists s1 s2, s = s1 ++ r :: s2 /\ covered t s1 /\ t !! r = None.
Proof.
  unfold Encode. destruct (decide (size t = 0%nat)) as [Hz|Hnz].
  - apply map_size_empty_iff in Hz. split; [done|]. by intros [H _].
  - rewrite encode_loop_Err. split.
    + intros (r' & s1 & s2 & Hr & Hs & Hcov & Hnone). injection Hr as <-.
      split; [|by exists s1, s2]. intros ->. by rewrite map_size_empty in Hnz.
    + intros (_ & s1 & s2 & Hs & Hcov & Hnone). by exists r, s1, s2.
Qed.

(** X4: [Encode] succeeds exactly when the table is not empty and every
    rune of the string has an entry; the lengths and bits of the codes play
    no part in that. *)
Theorem Encode_Ok_iff (t : Table) (s : list Z) :
  (exists bitVec size, Encode t s = Ok (bitVec, size)) <-> t ≠ ∅ /\ covered t s.
Proof.
  unfold Encode. destruct (decide (size t = 0%nat)) as [Hz|Hnz].
  - apply map_size_empty_iff in Hz. split; [by intros (? & ? & ?)|by intros [H _]].
  - split.
    + intros (bitVec & size & H). split.
      * intros ->. by rewrite map_size_empty in Hnz.
      * by eapply encode_loop_Ok_covered.
    + intros [_ Hcov]. by apply encode_loop_covered.
Qed.


(* ===================================================================== *)
(** ** What [Encode] writes *)
(* ===================================================================== *)

Lemma encode_loop_total_size (t : Table) s bitVec size bitVec' size' :
  encode_loop t s bitVec size = Ok (bitVec', size') ->
  size' = size + total_size t s.
Proof.
  revert bitVec size. induction s as [|r s IH]; intros bitVec size H; simpl in H.
  - injection H as _ <-. simpl. lia.
  - destruct (t !! r) as [code|] eqn:Hr; [|done].
    pose proof (encode_step_size code bitVec size) as E.
    destruct (encode_step code bitVec size) as [bitVec1 size1]. simpl in E.
    apply IH in H. simpl. rewrite Hr. simpl. lia.
Qed.

(** X5: the size returned by a successful [Encode] is the sum of the code
    lengths of the runes of the string, for every table. *)
Theorem Encode_size (t : Table) (s bitVec : list Z) (size : Z) :
  Encode t s = Ok (bitVec, size) -> size = total_size t s.
Proof.
  unfold Encode. destruct (decide _); [done|].
  intros H. apply encode_loop_total_size in H. lia.
Qed.

Lemma Encode_size_witness : 5 = total_size table_abc [97; 98; 99].
Proof.
  apply (Encode_size table_abc [97; 98; 99] [0x58000000] 5).
  vm_compute. reflexivity.
Defined.

Lemma codes_of_encoded_bits (t : Table) s cs :
  codes_of t s cs -> concat (code_bits <$> cs) = encoded_bits t s.
Proof.
  unfold encoded_bits. induction 1 as [|r c s cs Hc _ IH]; [done|].
  rewrite !fmap_cons. cbn [concat]. rewrite Hc, IH. done.
Qed.

(** X6: when no code of the table is longer than 32 bits and the bits of
    every code fit in its length, the first [size] bits of the vector
    returned by [Encode], read from the most significant bit of word 0 on,
    are the codes of the runes of the string one after the other, each
    with its most significant bit first. *)
Theorem Encode_stream (t : Table) (s bitVec : list Z) (size : Z) :
  sizes_in 0 32 t = true -> bits_fit t = true ->
  Encode t s = Ok (bitVec, size) ->
  stream bitVec 0 (Z.to_nat size) = encoded_bits t s.
Proof.
  intros Hsz Hfit Henc. unfold Encode in Henc.
  destruct (decide _); [done|].
  destruct (encode_loop_stream t s [0] 0 bitVec size Hsz Hfit)
    as (_ & cs & Hcs & Hst); [|done|].
  { split; [lia|]. split; [reflexivity|]. split; [intros; apply getbit_initial|].
    apply Forall_singleton. unfold word_ok. lia. }
  rewrite Hst. simpl. by apply codes_of_encoded_bits.
Qed.

Lemma Encode_stream_witness :
  stream [0x58000000] 0 (Z.to_nat 5) = encoded_bits table_abc [97; 98; 99].
Proof.
  apply (Encode_stream table_abc [97; 98; 99] [0x58000000] 5).
  - vm_compute. reflexivity.
  - vm_compute. reflexivity.
  - vm_compute. reflexivity.
Defined.

(* ===================================================================== *)
(** ** Tables that were not built here *)
(* ===================================================================== *)

Lemma prefix_freeb_sound (t : Table) : prefix_freeb t = true -> prefix_free t.
Proof.
  unfold prefix_freeb. rewrite forallb_forall.
  intros H r1 r2 c1 c2 Hne H1 H2.
  apply elem_of_map_to_list, list_elem_of_In in H1, H2.
  specialize (H _ H1). rewrite forallb_forall in H. specialize (H _ H2).
  simpl in H. unfold clash in H.
  destruct (Z.eqb_spec r1 r2); [done|]. simpl in H.
  destruct (Z.eqb_spec (truncate c1 (Z.min (Size c1) (Size c2)))
                       (truncate c2 (Z.min (Size c1) (Size c2)))); done.
Qed.

(** X7: round trip for every table, however it was obtained (read back
    from its serialised form, written by hand), that is prefix-free and
    whose codes are 1 to 32 bits long with bits that fit in their length:
    when [Encode] of a string that is valid UTF-8 succeeds, [Decode] of its
    output returns the string and no error. *)
Theorem Table_roundtrip (t : Table) (s bitVec : list Z) (size : Z) :
  ValidString s = true ->
  prefix_free t -> sizes_in 1 32 t = true -> bits_fit t = true ->
  Encode t (range_runes s) = Ok (bitVec, size) ->
  Decode t bitVec size = Some (s, None).
Proof.
  intros Hvalid Hpf Hsz Hfit Henc.
  rewrite <- (ValidString_roundtrip s Hvalid). by apply roundtrip_table.
Qed.

Lemma Table_roundtrip_witness :
  Decode table_abc [0x58000000] 5 = Some ([97; 98; 99], None).
Proof.
  apply (Table_roundtrip table_abc [97; 98; 99] [0x58000000] 5).
  - vm_compute. reflexivity.
  - apply prefix_freeb_sound. vm_compute. reflexivity.
  - vm_compute. reflexivity.
  - vm_compute. reflexivity.
  - vm_compute. reflexivity.
Defined.

(** X8: in a prefix-free table the scan of [Decode] for the entry with a
    given length and bits gives the same answer in every order in which
    the entries of the map may be visited, so the unspecified iteration
    order of Go's maps cannot change what is decoded. *)
Theorem scan_order_irrelevant (t : Table) (order : list (Z * Code)) (n bits : Z) :
  prefix_free t -> order ≡ₚ map_to_list t ->
  scan order n bits = find_code t n bits.
Proof. intros Hpf Hperm. by apply scan_any_order. Qed.

Lemma scan_order_irrelevant_witness :
  scan (reverse (map_to_list table_abc)) 2 3 = find_code table_abc 2 3.
Proof.
  apply (scan_order_irrelevant table_abc (reverse (map_to_list table_abc)) 2 3).
  - apply prefix_freeb_sound. vm_compute. reflexivity.
  - apply reverse_Permutation.
Defined.

(* ===================================================================== *)
(** ** What [Decode] never does *)
(* ===================================================================== *)

(** As long as enough words are left for the refills to come, the loop
    does not index out of range. *)
Lemma decode_loop_no_panic fuel (t : Table) size i v rest bits n b :
  0 <= i -> size / 32 - i / 32 <= Z.of_nat (length rest) ->
  decode_loop fuel t size i v rest bits n b ≠ ExitPanic.
Proof.
  revert i v rest bits n b.
  induction fuel as [|fuel IH]; intros i v rest bits n b Hi Hrest; simpl; [done|].
  destruct (Z.ltb_spec i size) as [Hlt|Hge]; [|done].
  destruct (32 <? n + 1); [done|].
  rewrite land_0x1F.
  destruct (Z.eqb_spec ((i + 1) mod 32) 0) as [Hz|Hnz].
  - destruct rest as [|w rest]; [simpl in Hrest; divmod|].
    simpl in Hrest.
    destruct (find_code t (n + 1) _); apply IH; try lia; divmod.
  - destruct (find_code t (n + 1) _); apply IH; try lia; divmod.
Qed.

(** X9: [Decode] panics (index out of range at [bitVec[0]]) exactly when
    the vector is empty and [size <= -32]; for every [size >= 0], every
    vector and every table it returns, and the refill of line 222 never
    runs out of words once the storage check has passed. *)
Theorem Decode_panics_iff (t : Table) (bitVec : list Z) (size : Z) :
  Decode t bitVec size = None <-> bitVec = [] /\ size <= -32.
Proof.
  unfold Decode.
  destruct (Z.leb_spec (Z.of_nat (length bitVec)) (Z.quot size 32)) as [Hle|Hgt].
  - split; [done|]. intros [-> Hs]. simpl in Hle.
    Z.to_euclidean_division_equations. lia.
  - unfold decode_run. destruct bitVec as [|v rest]; simpl.
    + split; [|done]. intros _. split; [done|]. simpl in Hgt.
      Z.to_euclidean_division_equations. lia.
    + split; [|by intros [? _]]. intros H.
      pose proof (decode_loop_no_panic (Z.to_nat size) t size 0 v rest 0 0 []) as Hnp.
      destruct (decode_loop _ t size 0 v rest 0 0 []) as [b n| |];
        simpl in H; [by destruct (n =? 0)|done|].
      exfalso. apply Hnp; [lia| |done].
      simpl in Hgt. change (0 / 32) with 0.
      Z.to_euclidean_division_equations. lia.
Qed.

Lemma string_of_runes_app rs1 rs2 :
  string_of_runes (rs1 ++ rs2) = string_of_runes rs1 ++ string_of_runes rs2.
Proof. unfold string_of_runes. by rewrite fmap_app, concat_app. Qed.

Lemma string_of_runes_snoc rs r :
  string_of_runes (rs ++ [r]) = string_of_runes rs ++ encode_rune r.
Proof.
  rewrite string_of_runes_app. unfold string_of_runes at 2. simpl.
  by rewrite app_nil_r.
Qed.

(** The buffer holds what [WriteRune] wrote for runes that have entries,
    one rune at most for each turn of the loop. *)
Lemma decode_loop_output fuel (t : Table) size i v rest bits n rs :
  covered t rs ->
  exists rs',
    decoded_so_far (decode_loop fuel t size i v rest bits n (string_of_runes rs))
    = string_of_runes rs' /\
    covered t rs' /\ (length rs' ≤ length rs + fuel)%nat.
Proof.
  revert i v rest bits n rs.
  induction fuel as [|fuel IH]; intros i v rest bits n rs Hrs; simpl.
  - exists rs. split; [done|]. split; [done|lia].
  - destruct (i <? size); [|exists rs; split; [done|]; split; [done|lia]].
    destruct (32 <? n + 1); [exists rs; split; [done|]; split; [done|lia]|].
    destruct (if Z.land (i + 1) 31 =? 0 then _ else _) as [[v' rest']|];
      [|exists []; split; [done|]; split; [constructor|simpl; lia]].
    destruct (find_code t (n + 1) _) as [r|] eqn:E.
    + apply find_code_Some in E as (c & Hc & _).
      rewrite <- string_of_runes_snoc.
      destruct (IH (i + 1) v' rest' 0 0 (rs ++ [r])) as (rs' & H1 & H2 & H3).
      { apply Forall_app_2; [done|]. apply Forall_singleton. by rewrite Hc. }
      exists rs'. split; [done|]. split; [done|].
      rewrite length_app in H3. simpl in H3. lia.
    + destruct (IH (i + 1) v' rest' (Z.lor (shl32 bits 1) (Z.shiftr v 31)) (n + 1) rs Hrs)
        as (rs' & H1 & H2 & H3).
      exists rs'. split; [done|]. split; [done|lia].
Qed.

(** X10: whatever the vector holds, the string that [Decode] returns is
    what [WriteRune] writes for a sequence of runes that have an entry in
    the table (their UTF-8 encoding, U+FFFD for a key that is no code
    point), at most [size] of them (none for [size <= 0]): every rune
    written takes at least one bit. *)
Theorem Decode_output (t : Table) (bitVec : list Z) (size : Z)
    (s : list Z) (e : option error) :
  Decode t bitVec size = Some (s, e) ->
  exists rs, s = string_of_runes rs /\ covered t rs /\ (length rs ≤ Z.to_nat size)%nat.
Proof.
  unfold Decode. destruct (_ <=? _).
  - intros H. injection H as <- <-. exists []. split; [done|].
    split; [constructor|simpl; lia].
  - unfold decode_run. destruct bitVec as [|v rest]; [done|].
    destruct (decode_loop_output (Z.to_nat size) t size 0 v rest 0 0 []
                ltac:(constructor)) as (rs & H1 & H2 & H3).
    change (string_of_runes []) with (@nil Z) in H1.
    destruct (decode_loop _ t size 0 v rest 0 0 []) as [b n| |]; simpl in *.
    + destruct (n =? 0); intros H; injection H as <- <-; by exists rs.
    + intros H. injection H as <- <-. exists []. split; [done|].
      split; [constructor|simpl; lia].
    + done.
Qed.

Lemma Decode_output_witness :
  exists rs, [97; 98; 99] = string_of_runes rs /\ covered table_abc rs /\
             (length rs ≤ Z.to_nat 5)%nat.
Proof.
  apply (Decode_output table_abc [0x58000000] 5 [97; 98; 99] None).
  vm_compute. reflexivity.
Defined.

(* ===================================================================== *)
(** ** The entries of a built table *)
(* ===================================================================== *)

Lemma extend_Prob code path : Prob (extend code path) = Prob code.
Proof.
  revert code. induction path as [|b path IH]; intros code; [done|].
  rewrite extend_cons, IH. done.
Qed.

Lemma BuildTable_is_Some freq r :
  is_Some (BuildTable freq !! r) <-> is_Some (freq !! r).
Proof.
  rewrite <- !elem_of_dom. unfold BuildTable.
  rewrite make_table_dom, divide_Char, elem_of_list_to_set.
  rewrite sort_codes_perm. unfold new_codes. rewrite <- list_fmap_compose.
  rewrite list_elem_of_fmap, elem_of_dom. split.
  - intros ([r' p] & -> & Hin). apply elem_of_map_to_list in Hin. by exists p.
  - intros [p Hp]. exists (r, p). split; [done|]. by apply elem_of_map_to_list.
Qed.

Lemma BuildTable_lookup freq r c :
  BuildTable freq !! r = Some c -> Char c = r /\ freq !! r = Some (Prob c).
Proof.
  unfold BuildTable. intros Hc.
  apply make_table_lookup in Hc as [Hc Hr].
  apply divide_entry in Hc as (i & c0 & path & _ & H0 & _ & ->).
  rewrite extend_Char in Hr. rewrite extend_Char, extend_Prob.
  split; [done|].
  apply list_elem_of_lookup_2 in H0. rewrite sort_codes_perm in H0.
  unfold new_codes in H0. apply list_elem_of_fmap in H0 as ([r' p] & -> & Hin).
  simpl in *. subst r'. by apply elem_of_map_to_list.
Qed.

(** X11: [BuildTable] keeps the symbols and their probabilities: a rune
    has probability [p] in the map exactly when the table has an entry for
    it whose [Char] is that rune and whose [Prob] is [p]. *)
Theorem BuildTable_entries (freq : gmap Z float) (r : Z) (p : float) :
  freq !! r = Some p <->
  exists c, BuildTable freq !! r = Some c /\ Char c = r /\ Prob c = p.
Proof.
  split.
  - intros Hp. destruct (proj2 (BuildTable_is_Some freq r)) as [c Hc]; [by eexists|].
    exists c. destruct (BuildTable_lookup _ _ _ Hc) as [Hr Hfreq].
    repeat split; [done|done|]. congruence.
  - intros (c & Hc & _ & <-). by apply BuildTable_lookup in Hc as [_ ?].
Qed.

(* ===================================================================== *)
(** ** [BuildTableFromString] *)
(* ===================================================================== *)

(** The frequency table of lines 128-130 counts the occurrences. *)
Lemma occurrences_cons r x s :
  occurrences r (x :: s) = (if decide (x = r) then 1 else 0) + occurrences r s.
Proof.
  unfold occurrences. rewrite filter_cons.
  destruct (decide (x = r)); simpl length; lia.
Qed.

Lemma occurrences_nonneg r s : 0 <= occurrences r s.
Proof. unfold occurrences. lia. Qed.

Lemma occurrences_pos r s : r ∈ s <-> 0 < occurrences r s.
Proof.
  induction s as [|x s IH].
  - split; [by intros ?%elem_of_nil|]. unfold occurrences. simpl. lia.
  - rewrite occurrences_cons, elem_of_cons.
    pose proof (occurrences_nonneg r s).
    destruct (decide (x = r)) as [->|Hne].
    + split; [lia|by left].
    + rewrite IH. split; [intros [?|?]; [congruence|lia]|]. intros ?. right. lia.
Qed.

Lemma count_fold s (freq : gmap Z Z) r :
  foldl (fun freq r => <[r := default 0 (freq !! r) + 1]> freq) freq s !! r =
  if decide (occurrences r s = 0) then freq !! r
  else Some (default 0 (freq !! r) + occurrences r s).
Proof.
  revert freq. induction s as [|x s IH]; intros freq.
  - done.
  - cbn [foldl]. rewrite IH, occurrences_cons.
    pose proof (occurrences_nonneg r s).
    destruct (decide (x = r)) as [->|Hne].
    + rewrite lookup_insert_eq. simpl.
      rewrite (decide_False (P := 1 + occurrences r s = 0)) by lia.
      case_decide as Hz; f_equal; lia.
    + rewrite lookup_insert_ne by done. done.
Qed.

Lemma count_runes_lookup s r :
  count_runes s !! r = if decide (r ∈ s) then Some (occurrences r s) else None.
Proof.
  unfold count_runes. rewrite count_fold, lookup_empty. simpl.
  pose proof (occurrences_pos r s) as Hpos.
  case_decide as Hz; case_decide as Hin; try done.
  - apply Hpos in Hin. lia.
  - exfalso. apply Hin, Hpos. pose proof (occurrences_nonneg r s). lia.
Qed.

Lemma FromString_lookup s r :
  (fun n => PrimFloat.div (float64 n) (float64 (Z.of_nat (length s))))
    <$> count_runes (range_runes s) !! r
  = if decide (r ∈ range_runes s)
    then Some (PrimFloat.div (float64 (occurrences r (range_runes s)))
                             (float64 (Z.of_nat (length s))))
    else None.
Proof. rewrite count_runes_lookup. by case_decide. Qed.

Lemma FromString_is_Some s r :
  is_Some (BuildTableFromString s !! r) <-> r ∈ range_runes s.
Proof.
  unfold BuildTableFromString. rewrite BuildTable_is_Some.
  rewrite lookup_fmap, FromString_lookup.
  case_decide as Hin; simpl; split; try done.
Qed.

(** X12: the table built from a string has an entry exactly for the runes
    that the [range] loop finds in it, so it covers them. *)
Theorem BuildTableFromString_covers (s : list Z) :
  (forall r, is_Some (BuildTableFromString s !! r) <-> r ∈ range_runes s) /\
  covered (BuildTableFromString s) (range_runes s).
Proof.
  split; [apply FromString_is_Some|].
  apply Forall_forall. intros r Hr. by apply FromString_is_Some.
Qed.



(** The bytes and the runes differ as soon as the string is not ASCII:
    "\xffa\xff" has 3 bytes, and its table gives U+FFFD the probability
    2/3 and 'a' the probability 1/3; the euro sign and two 'a' make 5
    bytes, and get the probabilities 1/5 and 2/5. *)
Lemma BuildTableFromString_bytes :
  Prob <$> BuildTableFromString [0xFF; 97; 0xFF] !! 0xFFFD = Some (PrimFloat.div 2 3) /\
  Prob <$> BuildTableFromString [0xFF; 97; 0xFF] !! 97 = Some (PrimFloat.div 1 3) /\
  Prob <$> BuildTableFromString str_euro !! 0x20AC = Some (PrimFloat.div 1 5) /\
  Prob <$> BuildTableFromString str_euro !! 97 = Some (PrimFloat.div 2 5).
Proof. vm_compute. repeat split. Qed.

(** X14: a table built from a string always encodes that string, except
    that for the empty string the table is empty and [Encode] returns the
    EmptyTable error. *)
Theorem BuildTableFromString_encodes (s : list Z) :
  (s = [] /\ Encode (BuildTableFromString s) (range_runes s) = Err EmptyTable) \/
  (s ≠ [] /\ exists bitVec size,
     Encode (BuildTableFromString s) (range_runes s) = Ok (bitVec, size)).
Proof.
  destruct (decide (s = [])) as [->|Hne].
  - left. split; [done|]. vm_compute. reflexivity.
  - right. split; [done|]. unfold Encode.
    destruct (range_runes s) as [|r rs] eqn:Hrs;
      [by apply (proj1 (range_runes_nil s)) in Hrs|].
    destruct (decide _) as [Hz|Hnz].
    + apply map_size_empty_iff in Hz.
      destruct (proj2 (FromString_is_Some s r)) as [c Hc];
        [rewrite Hrs; apply list_elem_of_here|].
      rewrite Hz, lookup_empty in Hc. done.
    + apply encode_loop_covered.
      apply Forall_forall. intros x Hx. apply FromString_is_Some. by rewrite Hrs.
Qed.

(* ===================================================================== *)
(** ** [BuildTableFromOrderedRunes] *)
(* ===================================================================== *)

(** The loop of lines 151-153 over the pairs of an index and a rune: the
    entry of a rune is the sum of the weights of its positions, added in
    the order of the positions to the value the map had (0 when it had
    none). *)
Lemma ranked_fold (w : nat -> float) (l : list (nat * Z)) (prob : gmap Z float) r :
  foldl (fun prob ir =>
           <[ir.2 := PrimFloat.add (default 0%float (prob !! ir.2)) (w ir.1)]> prob)
        prob l !! r
  = if decide (filter (fun ir : nat * Z => ir.2 = r) l = []) then prob !! r
    else Some (foldl PrimFloat.add (default 0%float (prob !! r))
                 (w <$> (fst <$> filter (fun ir : nat * Z => ir.2 = r) l))).
Proof.
  revert prob. induction l as [|[i x] l IH]; intros prob.
  - done.
  - cbn [foldl]. rewrite IH, filter_cons. simpl.
    destruct (decide (x = r)) as [->|Hne].
    + rewrite lookup_insert_eq. rewrite (decide_False (P := _ :: _ = [])) by done.
      simpl. case_decide as Hf; [by rewrite Hf|done].
    + by rewrite lookup_insert_ne.
Qed.

Lemma filter_indexed_nil (f : nat -> nat) r (runes : list Z) :
  filter (fun ir : nat * Z => ir.2 = r) (imap (fun i x => (f i, x)) runes) = []
  <-> r ∉ runes.
Proof.
  revert f. induction runes as [|x runes IH]; intros f.
  - split; [intros _; apply not_elem_of_nil|done].
  - rewrite imap_cons, filter_cons, not_elem_of_cons. simpl.
    destruct (decide (x = r)) as [->|Hne].
    + split; [done|]. by intros [? _].
    + rewrite (IH (f ∘ S)). split; [by intros ?; split|by intros [_ ?]].
Qed.

Lemma positions_nil r runes : positions r runes = [] <-> r ∉ runes.
Proof.
  unfold positions. rewrite <- (filter_indexed_nil id). split.
  - by intros ?%fmap_nil_inv.
  - unfold id. by intros ->.
Qed.

Lemma ranked_lookup runes r :
  BuildTableFromOrderedRunes runes !! r = None /\ r ∉ runes \/
  exists c, BuildTableFromOrderedRunes runes !! r = Some c /\ r ∈ runes /\
    Char c = r /\
    Prob c = foldl PrimFloat.add 0%float
               (ranked_weight (Z.of_nat (length runes)) <$> positions r runes).
Proof.
  unfold BuildTableFromOrderedRunes.
  set (step := fun (prob : gmap Z float) (ir : nat * Z) => _).
  set (prob := foldl step ∅ _).
  assert (prob !! r =
          if decide (positions r runes = []) then None
          else Some (foldl PrimFloat.add 0%float
                       (ranked_weight (Z.of_nat (length runes)) <$> positions r runes)))
    as Hprob.
  { subst prob step.
    rewrite (ranked_fold (ranked_weight (Z.of_nat (length runes)))).
    rewrite lookup_empty. unfold positions.
    destruct (decide (filter _ _ = [])) as [Hf|Hf].
    - rewrite Hf. done.
    - rewrite decide_False; [done|]. by intros ?%fmap_nil_inv. }
  destruct (decide (positions r runes = [])) as [Hnil|Hpos].
  - left. apply positions_nil in Hnil as Hnotin. split; [|done].
    apply eq_None_not_Some. rewrite BuildTable_is_Some, Hprob. by intros [? ?].
  - right. destruct (proj2 (BuildTable_is_Some prob r)) as [c Hc];
      [by rewrite Hprob|].
    exists c. split; [done|].
    split; [|].
    { destruct (decide (r ∈ runes)) as [|Hn]; [done|]. by apply positions_nil in Hn. }
    apply BuildTable_lookup in Hc as [Hr Hp]. split; [done|].
    rewrite Hprob in Hp. by injection Hp as <-.
Qed.

(** X15: the table built from a ranked list has an entry exactly for the
    runes of the list. *)
Theorem BuildTableFromOrderedRunes_covers (runes : list Z) (r : Z) :
  is_Some (BuildTableFromOrderedRunes runes !! r) <-> r ∈ runes.
Proof.
  destruct (ranked_lookup runes r) as [[Hnone Hnotin]|(c & Hc & Hin & _)].
  - rewrite Hnone. split; [by intros [? ?]|done].
  - rewrite Hc. split; [done|by eexists].
Qed.

(** X16: in the table built from a ranked list of [n] runes, the
    probability of a rune is the sum of the weights
    [float64(n-i) / float64(n*(n-1)/2 + n)] of the positions [i] at which
    it occurs, added to 0 in the order of the positions. *)
Theorem BuildTableFromOrderedRunes_prob (runes : list Z) (r : Z) (c : Code) :
  BuildTableFromOrderedRunes runes !! r = Some c ->
  Char c = r /\
  Prob c = foldl PrimFloat.add 0%float
             (ranked_weight (Z.of_nat (length runes)) <$> positions r runes).
Proof.
  intros Hc.
  destruct (ranked_lookup runes r) as [[Hnone _]|(c' & Hc' & _ & Hr & Hp)].
  - congruence.
  - rewrite Hc in Hc'. injection Hc' as <-. done.
Qed.

Lemma BuildTableFromOrderedRunes_prob_witness :
  Char (mkCode 120 (PrimFloat.add (PrimFloat.div 3 6) (PrimFloat.div 1 6)) 0 1) = 120 /\
  Prob (mkCode 120 (PrimFloat.add (PrimFloat.div 3 6) (PrimFloat.div 1 6)) 0 1)
  = foldl PrimFloat.add 0%float
      (ranked_weight (Z.of_nat (length [120; 121; 120])) <$> positions 120 [120; 121; 120]).
Proof.
  apply (BuildTableFromOrderedRunes_prob [120; 121; 120] 120
           (mkCode 120 (PrimFloat.add (PrimFloat.div 3 6) (PrimFloat.div 1 6)) 0 1)).
  vm_compute. reflexivity.
Defined.

Lemma filter_indexed_NoDup (f : nat -> nat) (runes : list Z) i r :
  NoDup runes -> runes !! i = Some r ->
  filter (fun ir : nat * Z => ir.2 = r) (imap (fun i x => (f i, x)) runes) = [(f i, r)].
Proof.
  revert f i. induction runes as [|x runes IH]; intros f i Hnd Hi; [done|].
  apply NoDup_cons in Hnd as [Hx Hnd].
  rewrite imap_cons, filter_cons. simpl.
  destruct i as [|i]; simpl in Hi.
  - injection Hi as ->. rewrite decide_True by done. f_equal.
    by apply (filter_indexed_nil (f ∘ S)).
  - rewrite decide_False.
    + apply (IH (f ∘ S) i Hnd Hi).
    + intros ->. apply Hx. by eapply list_elem_of_lookup_2.
Qed.

(** X17: when the runes of a ranked list of [n] runes are distinct, the
    rune at position [i] has the probability [0 + float64(n-i) / m] with
    [m = float64(n*(n-1)/2 + n)]. *)
Theorem BuildTableFromOrderedRunes_distinct (runes : list Z) (i : nat) (r : Z) (c : Code) :
  NoDup runes -> runes !! i = Some r ->
  BuildTableFromOrderedRunes runes !! r = Some c ->
  Prob c = PrimFloat.add 0%float (ranked_weight (Z.of_nat (length runes)) i).
Proof.
  intros Hnd Hi Hc.
  destruct (ranked_lookup runes r) as [[Hnone _]|(c' & Hc' & _ & _ & Hp)]; [congruence|].
  rewrite Hc in Hc'. injection Hc' as <-. rewrite Hp.
  pose proof (filter_indexed_NoDup id runes i r Hnd Hi) as Hf. unfold id in Hf.
  unfold positions. rewrite Hf. done.
Qed.

Lemma BuildTableFromOrderedRunes_distinct_witness :
  Prob (mkCode 121 (PrimFloat.div 2 6) 1 2)
  = PrimFloat.add 0%float (ranked_weight (Z.of_nat (length [120; 121; 122])) 1).
Proof.
  apply (BuildTableFromOrderedRunes_distinct [120; 121; 122] 1 121
           (mkCode 121 (PrimFloat.div 2 6) 1 2)).
  - apply (bool_decide_unpack _). vm_compute. exact I.
  - reflexivity.
  - vm_compute. reflexivity.
Defined.

(* ===================================================================== *)
(** ** Round trips through the constructors *)
(* ===================================================================== *)


Lemma BuildTable_size freq : size (BuildTable freq) = size freq.
Proof.
  rewrite <- !size_dom. f_equal.
  apply set_eq. intros r. rewrite !elem_of_dom. apply BuildTable_is_Some.
Qed.






(** Without the condition on the string the round trip of a ranked table
    fails: with U+FFFD in the list, the one byte "\xff" is encoded, and
    decoded as the three bytes of U+FFFD. *)
Lemma ranked_roundtrip_invalid_utf8 :
  Encode (BuildTableFromOrderedRunes [0xFFFD; 98]) (range_runes [0xFF])
  = Ok ([0], 1) /\
  Decode (BuildTableFromOrderedRunes [0xFFFD; 98]) [0] 1
  = Some ([0xEF; 0xBF; 0xBD], None).
Proof. vm_compute. repeat split. Qed.

(* ===================================================================== *)
(** ** What [Decode] returns is a parse of the stream *)
(* ===================================================================== *)






(* ===================================================================== *)
(** ** Built tables are complete codes *)
(* ===================================================================== *)

(** The partition tree has no node with a single child: every sequence
    of bits either starts with a path of the tree or is the proper start of
    one. *)
Lemma paths_fuel_full fuel codes (l : list bool) :
  (length codes ≤ fuel)%nat -> (1 ≤ length codes)%nat ->
  (exists p k, p ∈ paths_fuel fuel codes /\ l = p ++ k) \/
  (exists p x k, p ∈ paths_fuel fuel codes /\ p = l ++ x :: k).
Proof.
  revert codes l. induction fuel as [|fuel IH]; intros codes l Hfuel Hlen; [lia|].
  simpl. destruct (Nat.ltb_spec (length codes) 2) as [Hs|Hl].
  - left. exists [], l. split; [|done].
    destruct codes as [|c codes]; [simpl in Hlen; lia|]. apply list_elem_of_here.
  - pose proof (pivot_bounds codes Hl) as Hp. set (p := pivot codes) in *.
    assert (length (take p codes) ≤ fuel)%nat as F1 by (rewrite length_take; lia).
    assert (1 ≤ length (take p codes))%nat as L1 by (rewrite length_take; lia).
    assert (length (drop p codes) ≤ fuel)%nat as F2 by (rewrite length_drop; lia).
    assert (1 ≤ length (drop p codes))%nat as L2 by (rewrite length_drop; lia).
    destruct l as [|[|] l].
    + right.
      assert (exists q, q ∈ paths_fuel fuel (take p codes)) as [q Hq].
      { destruct (IH (take p codes) [] F1 L1) as [(q & _ & Hq & _)|(q & _ & _ & Hq & _)];
          by exists q. }
      exists (false :: q), false, q. split; [|done].
      apply elem_of_app. left. apply list_elem_of_fmap. by exists q.
    + destruct (IH (drop p codes) l F2 L2) as [(q & k & Hq & ->)|(q & x & k & Hq & ->)].
      * left. exists (true :: q), k. split; [|done].
        apply elem_of_app. right. apply list_elem_of_fmap. by exists q.
      * right. exists (true :: l ++ x :: k), x, k. split; [|done].
        apply elem_of_app. right. apply list_elem_of_fmap. by exists (l ++ x :: k).
    + destruct (IH (take p codes) l F1 L1) as [(q & k & Hq & ->)|(q & x & k & Hq & ->)].
      * left. exists (false :: q), k. split; [|done].
        apply elem_of_app. left. apply list_elem_of_fmap. by exists q.
      * right. exists (false :: l ++ x :: k), x, k. split; [|done].
        apply elem_of_app. left. apply list_elem_of_fmap. by exists (l ++ x :: k).
Qed.

(** When no two codes of a list are for the same rune, each of them is
    the entry of its rune. *)
Lemma make_table_NoDup codes c :
  NoDup (Char <$> codes) -> c ∈ codes -> make_table codes !! Char c = Some c.
Proof.
  unfold make_table.
  induction codes as [|a codes IH] using rev_ind; intros Hnd Hc.
  - by apply elem_of_nil in Hc.
  - rewrite foldl_app. simpl.
    rewrite fmap_app in Hnd. apply NoDup_app in Hnd as (Hnd & Hdisj & _).
    apply elem_of_app in Hc as [Hc|Hc].
    + rewrite lookup_insert_ne; [by apply IH|].
      intros Heq. apply (Hdisj (Char c)).
      * apply list_elem_of_fmap. by exists c.
      * rewrite <- Heq. simpl. apply list_elem_of_here.
    + apply list_elem_of_singleton in Hc as ->. apply lookup_insert_eq.
Qed.

(** From here on, a list of 2 to 33 fresh codes for distinct runes. *)
Section CompleteCode.
Variable codes : list Code.
Hypothesis Hfresh : fresh codes.
Hypothesis Hnodup : NoDup (Char <$> codes).
Hypothesis Hlen : (2 ≤ length codes ≤ 33)%nat.

(** Every path of the tree is the code of an entry of the table. *)
Lemma path_entry i p :
  paths codes !! i = Some p ->
  exists r c, make_table (divide codes) !! r = Some c /\
    Size c = Z.of_nat (length p) /\ Bits c = bits_val p.
Proof.
  intros Hp.
  destruct (lookup_lt_is_Some_2 codes i) as [c0 H0].
  { apply lookup_lt_Some in Hp. unfold paths in Hp. by rewrite length_paths_fuel in Hp. }
  assert (divide codes !! i = Some (extend c0 p)) as Hd.
  { rewrite divide_paths. apply lookup_zip_with_Some. by exists c0, p. }
  exists (Char (extend c0 p)), (extend c0 p). split.
  - apply make_table_NoDup; [by rewrite divide_Char|by eapply list_elem_of_lookup_2].
  - destruct (Hfresh c0) as [Hb Hs]; [by eapply list_elem_of_lookup_2|].
    pose proof (paths_fuel_length_le _ _ _ _ Hp).
    split; [rewrite extend_Size; lia|apply extend_Bits; [done|lia]].
Qed.

(** While the bits accumulated are the proper start of a path, the loop
    is never left for want of a matching code. *)
Lemma decode_bits_complete bs pend b b' :
  (exists i x k, paths codes !! i = Some (pend ++ x :: k)) ->
  decode_bits (make_table (divide codes)) bs (bits_val pend) (Z.of_nat (length pend)) b
  ≠ ExitNoMatch b'.
Proof.
  revert pend b. induction bs as [|x bs IH]; intros pend b (i & y & k & Hq); simpl;
    [done|].
  pose proof (paths_fuel_length_le _ _ _ _ Hq) as Hle.
  rewrite length_app in Hle. simpl in Hle.
  destruct (Z.ltb_spec 32 (Z.of_nat (length pend) + 1)); [lia|].
  assert (Z.lor (shl32 (bits_val pend) 1) (Z.b2z x) = bits_val (pend ++ [x])) as Hbits.
  { pose proof (bits_val_bound pend) as B.
    assert (2 ^ Z.of_nat (length pend) <= 2 ^ 31) by (apply Z.pow_le_mono_r; lia).
    rewrite shl32_1 by lia. rewrite lor_double_bit, bits_val_app.
    simpl. lia. }
  assert (Z.of_nat (length pend) + 1 = Z.of_nat (length (pend ++ [x]))) as Hlen'.
  { rewrite length_app. simpl. lia. }
  rewrite Hbits, Hlen'.
  destruct (find_code _ _ _) as [r|] eqn:E.
  - apply (IH [] (b ++ encode_rune r)).
    destruct (pend ++ y :: k) as [|z k'] eqn:Eq; [by destruct pend|].
    by exists i, z, k'.
  - apply (IH (pend ++ [x]) b).
    destruct (paths_fuel_full (length codes) codes (pend ++ [x]))
      as [(p & k' & Hp & Hpk)|(p & z & k' & Hp & ->)]; [lia|lia| |].
    + exfalso. apply list_elem_of_lookup in Hp as [j Hj].
      induction k' as [|z k' _] using rev_ind.
      * rewrite app_nil_r in Hpk. subst p.
        destruct (path_entry _ _ Hj) as (r & c & Hc & Hs & Hb).
        by apply (find_code_None _ _ _ _ _ E Hc).
      * rewrite app_assoc in Hpk. apply app_inj_tail in Hpk as [-> _].
        assert (j ≠ i) as Hne.
        { intros ->. unfold paths in Hq. rewrite Hq in Hj. injection Hj as Hj.
          apply (f_equal length) in Hj. rewrite !length_app in Hj. simpl in Hj. lia. }
        destruct (paths_fuel_diverge _ _ _ _ _ _ (le_n _) Hne Hj Hq)
          as (u & c & r1 & r2 & E1 & E2).
        rewrite E1 in E2. rewrite <- !app_assoc in E2.
        apply app_inv_head in E2. simpl in E2. injection E2 as E2 _. by destruct c.
    + apply list_elem_of_lookup in Hp as [j Hj]. by exists j, z, k'.
Qed.

Lemma complete_no_mismatch bitVec size s :
  Forall word_ok bitVec ->
  Decode (make_table (divide codes)) bitVec size ≠ Some (s, Some NoMatchingCode).
Proof.
  intros Hok. unfold Decode.
  destruct (Z.leb_spec (Z.of_nat (length bitVec)) (Z.quot size 32)) as [|Hn]; [done|].
  unfold decode_run. destruct bitVec as [|v rest]; [done|].
  destruct (Z.lt_ge_cases size 0) as [Hneg|Hpos].
  { replace (Z.to_nat size) with 0%nat by lia. done. }
  rewrite Z.quot_div_nonneg in Hn by lia.
  rewrite (decode_loop_bits _ _ size (v :: rest) 0 v rest 0 0 []);
    try done; try lia.
  2:{ intros _. split; [|done].
      change (0 / 32) with 0. change (0 mod 32) with 0. simpl.
      rewrite Z.shiftl_0_r. unfold wrap32. rewrite Z.mod_small; [done|].
      by apply Forall_cons_1 in Hok as [Hv _]. }
  destruct (decode_bits _ _ 0 0 []) as [b n| b|] eqn:E; simpl.
  - by destruct (n =? 0).
  - exfalso. apply (decode_bits_complete _ [] [] b) in E; [done|].
    destruct (lookup_lt_is_Some_2 (paths codes) 0) as [p Hp].
    { unfold paths. rewrite length_paths_fuel. lia. }
    pose proof (paths_nonempty codes 0 p ltac:(lia) Hp).
    destruct p as [|z k]; [done|]. by exists 0%nat, z, k.
  - done.
Qed.

End CompleteCode.

(** X21: a table built from 2 to 33 symbols is a complete code: in
    whatever the bit vector holds, every sequence of bits runs into a code
    after at most 32 bits, so [Decode] never returns the NoMatchingCode
    error.  (The words of the vector are [uint32] values.) *)
Theorem Decode_built_no_mismatch (freq : gmap Z float) (bitVec : list Z) (size : Z)
    (s : list Z) :
  (2 ≤ base.size freq ≤ 33)%nat -> Forall word_ok bitVec ->
  Decode (BuildTable freq) bitVec size ≠ Some (s, Some NoMatchingCode).
Proof.
  intros Hn Hok. unfold BuildTable. apply complete_no_mismatch.
  - apply fresh_new_codes.
  - rewrite sort_codes_perm. unfold new_codes. rewrite <- list_fmap_compose.
    apply NoDup_fst_map_to_list.
  - by rewrite length_sorted_codes.
  - done.
Qed.

Lemma Decode_built_no_mismatch_witness :
  Decode (BuildTable freq2) [0xFFFFFFFF; 0xFFFFFFFF] 40 ≠ Some ([], Some NoMatchingCode).
Proof.
  apply (Decode_built_no_mismatch freq2 [0xFFFFFFFF; 0xFFFFFFFF] 40 []).
  - vm_compute. lia.
  - repeat constructor; unfold word_ok; lia.
Defined.

(* ===================================================================== *)
(** ** Decoding a part of an encoding *)
(* ===================================================================== *)

(** Once the storage check has passed, [Decode] is the loop on the first
    [size] bits of the stream. *)
Lemma Decode_as_bits (t : Table) bitVec size :
  Forall word_ok bitVec -> 0 <= size -> size / 32 < Z.of_nat (length bitVec) ->
  Decode t bitVec size
  = decode_return (decode_bits t (stream bitVec 0 (Z.to_nat size)) 0 0 []).
Proof.
  intros Hok Hsize Hlen. unfold Decode. rewrite Z.quot_div_nonneg by lia.
  destruct (Z.leb_spec (Z.of_nat (length bitVec)) (size / 32)); [lia|].
  unfold decode_run. destruct bitVec as [|v rest]; [simpl in Hlen; divmod|].
  rewrite (decode_loop_bits _ t size (v :: rest) 0 v rest 0 0 []); try done; try lia.
  - by rewrite Z.sub_0_r.
  - intros _. split; [|done].
    change (0 / 32) with 0. change (0 mod 32) with 0. simpl.
    rewrite Z.shiftl_0_r. unfold wrap32. rewrite Z.mod_small; [done|].
    by apply Forall_cons_1 in Hok as [Hv _].
Qed.

Lemma stream_split bitVec (n : nat) (A X Y : list bool) :
  stream bitVec 0 n = A ++ X ++ Y ->
  stream bitVec 0 (length A + length X) = A ++ X.
Proof.
  intros Hst.
  assert (n = length A + length X + length Y)%nat as ->.
  { apply (f_equal length) in Hst. unfold stream in Hst.
    rewrite length_bits_from, !length_app in Hst. lia. }
  unfold stream in *. rewrite bits_from_app, app_assoc in Hst.
  apply app_inj_1 in Hst as [H _]; [done|].
  rewrite length_bits_from, length_app. lia.
Qed.

Lemma total_size_app (t : Table) s1 s2 :
  total_size t (s1 ++ s2) = total_size t s1 + total_size t s2.
Proof.
  induction s1 as [|r s1 IH]; simpl; [done|]. rewrite IH. lia.
Qed.

Lemma length_code_bits c : length (code_bits c) = Z.to_nat (Size c).
Proof. unfold code_bits. apply length_bits_from. Qed.

Lemma codes_of_length (t : Table) s cs :
  sizes_in 0 32 t = true -> codes_of t s cs ->
  0 <= total_size t s /\
  length (concat (code_bits <$> cs)) = Z.to_nat (total_size t s).
Proof.
  intros Hsz. induction 1 as [|r c s cs Hc _ [IH1 IH2]]; [done|].
  pose proof (proj1 (sizes_in_spec _ _ _) Hsz _ _ Hc) as HL.
  rewrite fmap_cons. cbn [concat]. rewrite length_app, IH2.
  simpl. rewrite Hc. simpl. unfold code_bits. rewrite length_bits_from. lia.
Qed.

(** From here on a table is fixed that is prefix-free, whose codes are
    between 1 and 32 bits long and fit in their length. *)
Section Cut.
Variable t : Table.
Hypothesis Hpf : prefix_free t.
Hypothesis Hsz : sizes_in 1 32 t = true.
Hypothesis Hfit : bits_fit t = true.

Lemma decode_bits_codes_tail s cs tail b :
  codes_of t s cs ->
  decode_bits t (concat (code_bits <$> cs) ++ tail) 0 0 b
  = decode_bits t tail 0 0 (b ++ string_of_runes s).
Proof.
  intros Hcs. revert b.
  induction Hcs as [|r c s cs Hc _ IH]; intros b.
  - simpl. by rewrite app_nil_r.
  - rewrite fmap_cons. cbn [concat]. rewrite <- app_assoc.
    pose proof (code_size t Hsz r c Hc) as HL.
    pose proof (code_fits t Hfit r c Hc) as HB.
    pose proof (decode_bits_code t Hpf Hsz Hfit r c
                  (concat (code_bits <$> cs) ++ tail) b
                  (Z.to_nat (Size c)) Hc 0) as Hcode.
    rewrite truncate_0 in Hcode by (lia || done).
    unfold code_bits at 1. rewrite Hcode by lia.
    rewrite IH. unfold string_of_runes. rewrite fmap_cons. cbn [concat].
    by rewrite <- app_assoc.
Qed.

(** Reading only the first bits of a code leaves them accumulated. *)
Lemma decode_bits_partial r c b (m : nat) :
  t !! r = Some c ->
  forall k, 0 <= k -> k + Z.of_nat m < Size c ->
  decode_bits t (bits_from (fun j => Z.testbit (Bits c) (Size c - 1 - j)) k m)
    (truncate c k) k b
  = ExitDone b (k + Z.of_nat m).
Proof.
  intros Hc.
  pose proof (code_size t Hsz r c Hc) as HL.
  pose proof (code_fits t Hfit r c Hc) as HB.
  induction m as [|m IH]; intros k Hk Hm.
  - simpl. f_equal. lia.
  - cbn [bits_from decode_bits]. rewrite truncate_step by lia.
    destruct (Z.ltb_spec 32 (k + 1)); [lia|].
    rewrite (find_code_prefix t Hpf r c (k + 1)) by (done || lia).
    rewrite decide_False by lia.
    rewrite IH by lia. f_equal. lia.
Qed.

(** What [Encode] returns: the invariant of its loop and the stream. *)
Lemma Encode_inv s bitVec size :
  Encode t s = Ok (bitVec, size) ->
  encoder_inv bitVec size /\
  exists cs, codes_of t s cs /\
    stream bitVec 0 (Z.to_nat size) = concat (code_bits <$> cs).
Proof.
  intros Henc. unfold Encode in Henc. destruct (decide _); [done|].
  assert (sizes_in 0 32 t = true) as Hsz0.
  { apply sizes_in_spec. intros r c Hc. pose proof (code_size t Hsz r c Hc). lia. }
  destruct (encode_loop_stream t s [0] 0 bitVec size Hsz0 Hfit) as (Hinv & cs & Hcs & Hst);
    [|done|by split; [|exists cs]].
  split; [lia|]. split; [reflexivity|]. split; [intros; apply getbit_initial|].
  apply Forall_singleton. unfold word_ok. lia.
Qed.

(** The bit count cut after the codes of the first runes [rs1]. *)
Lemma cut_prefix rs1 rs2 bitVec size :
  Encode t (rs1 ++ rs2) = Ok (bitVec, size) ->
  Decode t bitVec (total_size t rs1) = Some (string_of_runes rs1, None).
Proof.
  intros Henc.
  assert (sizes_in 0 32 t = true) as Hsz0.
  { apply sizes_in_spec. intros r c Hc. pose proof (code_size t Hsz r c Hc). lia. }
  destruct (Encode_inv _ _ _ Henc) as ((Hsize & Hlen & _ & Hok) & cs & Hcs & Hst).
  apply Forall2_app_inv_l in Hcs as (cs1 & cs2 & Hcs1 & Hcs2 & ->).
  destruct (codes_of_length t rs1 cs1 Hsz0 Hcs1) as [Hpos1 Hlen1].
  destruct (codes_of_length t rs2 cs2 Hsz0 Hcs2) as [Hpos2 Hlen2].
  rewrite fmap_app, concat_app in Hst.
  assert (size = total_size t rs1 + total_size t rs2) as Hsum.
  { apply (f_equal length) in Hst. unfold stream in Hst.
    rewrite length_bits_from, length_app in Hst. lia. }
  rewrite <- (app_nil_l (concat (code_bits <$> cs2))) in Hst.
  apply stream_split in Hst. rewrite Hlen1 in Hst. simpl in Hst.
  rewrite Nat.add_0_r, app_nil_r in Hst.
  rewrite Decode_as_bits; [|done|done|divmod].
  rewrite Hst.
  rewrite (decode_bits_codes t Hpf Hsz Hfit rs1 cs1 [] Hcs1). done.
Qed.

(** The bit count cut inside the code of the rune [r]. *)
Lemma cut_inside rs1 r rs2 bitVec size k :
  Encode t (rs1 ++ r :: rs2) = Ok (bitVec, size) ->
  total_size t rs1 < k < total_size t (rs1 ++ [r]) ->
  Decode t bitVec k = Some (string_of_runes rs1, Some TrailingBits).
Proof.
  intros Henc Hk.
  assert (sizes_in 0 32 t = true) as Hsz0.
  { apply sizes_in_spec. intros r' c Hc. pose proof (code_size t Hsz r' c Hc). lia. }
  destruct (Encode_inv _ _ _ Henc) as ((Hsize & Hlen & _ & Hok) & cs & Hcs & Hst).
  apply Forall2_app_inv_l in Hcs as (cs1 & cs2 & Hcs1 & Hcs2 & ->).
  apply Forall2_cons_inv_l in Hcs2 as (c & cs2' & Hc & Hcs2 & ->).
  destruct (codes_of_length t rs1 cs1 Hsz0 Hcs1) as [Hpos1 Hlen1].
  destruct (codes_of_length t rs2 cs2' Hsz0 Hcs2) as [Hpos2 Hlen2].
  pose proof (code_size t Hsz r c Hc) as HL.
  pose proof (code_fits t Hfit r c Hc) as HB.
  rewrite total_size_app in Hk. simpl in Hk. rewrite Hc in Hk. simpl in Hk.
  rewrite fmap_app, concat_app, fmap_cons in Hst. cbn [concat] in Hst.
  assert (size = total_size t rs1 + (Size c + total_size t rs2)) as Hsum.
  { apply (f_equal length) in Hst. unfold stream in Hst.
    rewrite length_bits_from, !length_app, length_code_bits in Hst. lia. }
  set (m := Z.to_nat (k - total_size t rs1)).
  unfold code_bits at 2 in Hst.
  replace (Z.to_nat (Size c)) with (m + (Z.to_nat (Size c) - m))%nat in Hst by lia.
  rewrite bits_from_app, <- app_assoc in Hst.
  apply stream_split in Hst. rewrite Hlen1, length_bits_from in Hst.
  replace (Z.to_nat (total_size t rs1) + m)%nat with (Z.to_nat k) in Hst by lia.
  rewrite Decode_as_bits; [|done|lia|divmod].
  rewrite Hst, (decode_bits_codes_tail rs1 cs1 _ [] Hcs1). simpl app.
  pose proof (decode_bits_partial r c (string_of_runes rs1) m Hc 0
                ltac:(lia) ltac:(lia)) as Hpart.
  rewrite truncate_0 in Hpart by (lia || done).
  rewrite Hpart. simpl.
  destruct (Z.eqb_spec (0 + Z.of_nat m) 0); [lia|done].
Qed.

End Cut.

(** X22: with a prefix-free table whose codes are 1 to 32 bits long and
    fit in their length, [Decode] of the encoding of a string [s1 ++ s2],
    where [s1] is valid UTF-8, with the bit count cut at the end of the
    codes of [s1], returns [s1] and no error. *)
Theorem Decode_prefix (t : Table) (s1 s2 bitVec : list Z) (size : Z) :
  ValidString s1 = true ->
  prefix_free t -> sizes_in 1 32 t = true -> bits_fit t = true ->
  Encode t (range_runes (s1 ++ s2)) = Ok (bitVec, size) ->
  Decode t bitVec (total_size t (range_runes s1)) = Some (s1, None).
Proof.
  intros Hvalid Hpf Hsz Hfit Henc. rewrite range_runes_app in Henc by done.
  rewrite (cut_prefix t Hpf Hsz Hfit _ _ _ _ Henc).
  by rewrite ValidString_roundtrip.
Qed.

Lemma Decode_prefix_witness :
  Decode table_abc [0x58000000] (total_size table_abc (range_runes [97; 98]))
  = Some ([97; 98], None).
Proof.
  apply (Decode_prefix table_abc [97; 98] [99] [0x58000000] 5).
  - vm_compute. reflexivity.
  - apply prefix_freeb_sound. vm_compute. reflexivity.
  - vm_compute. reflexivity.
  - vm_compute. reflexivity.
  - vm_compute. reflexivity.
Defined.

(** X23: with such a table, [Decode] of the encoding of a string
    [s1 ++ s2], where [s1] is valid UTF-8, with a bit count that ends
    strictly inside the code of the first rune of [s2], returns the
    TrailingBits error together with [s1]. *)
Theorem Decode_cut (t : Table) (s1 s2 bitVec : list Z) (size k : Z) :
  ValidString s1 = true ->
  prefix_free t -> sizes_in 1 32 t = true -> bits_fit t = true ->
  Encode t (range_runes (s1 ++ s2)) = Ok (bitVec, size) ->
  total_size t (range_runes s1) < k
    < total_size t (range_runes s1 ++ take 1 (range_runes s2)) ->
  Decode t bitVec k = Some (s1, Some TrailingBits).
Proof.
  intros Hvalid Hpf Hsz Hfit Henc Hk. rewrite range_runes_app in Henc by done.
  destruct (range_runes s2) as [|r rs2].
  { rewrite app_nil_r in Hk. lia. }
  simpl take in Hk.
  rewrite (cut_inside t Hpf Hsz Hfit _ _ _ _ _ _ Henc Hk).
  by rewrite ValidString_roundtrip.
Qed.

Lemma Decode_cut_witness :
  Decode table_abc [0x58000000] 2 = Some ([97], Some TrailingBits).
Proof.
  apply (Decode_cut table_abc [97] [98; 99] [0x58000000] 5 2).
  - vm_compute. reflexivity.
  - apply prefix_freeb_sound. vm_compute. reflexivity.
  - vm_compute. reflexivity.
  - vm_compute. reflexivity.
  - vm_compute. reflexivity.
  - vm_compute. split; reflexivity.
Defined.

(** X24: with a prefix-free table whose codes are 1 to 32 bits long and
    fit in their length, [Encode] is injective on the strings that are
    valid UTF-8: two such strings with the same encoding (vector and bit
    count) are equal. *)
Theorem Encode_injective (t : Table) (s1 s2 bitVec : list Z) (size : Z) :
  ValidString s1 = true -> ValidString s2 = true ->
  prefix_free t -> sizes_in 1 32 t = true -> bits_fit t = true ->
  Encode t (range_runes s1) = Ok (bitVec, size) ->
  Encode t (range_runes s2) = Ok (bitVec, size) ->
  s1 = s2.
Proof.
  intros Hv1 Hv2 Hpf Hsz Hfit H1 H2.
  apply (roundtrip_table t Hpf Hsz Hfit) in H1, H2.
  rewrite ValidString_roundtrip in H1, H2 by done. congruence.
Qed.

Lemma Encode_injective_witness : [97; 98; 99] = [97; 98; 99].
Proof.
  apply (Encode_injective table_abc [97; 98; 99] [97; 98; 99] [0x58000000] 5).
  - vm_compute. reflexivity.
  - vm_compute. reflexivity.
  - apply prefix_freeb_sound. vm_compute. reflexivity.
  - vm_compute. reflexivity.
  - vm_compute. reflexivity.
  - vm_compute. reflexivity.
  - vm_compute. reflexivity.
Defined.

(** On strings that are not valid UTF-8 [Encode] is not injective: the
    [range] clause reads the strings "\xff" and "\xfe" as the same rune
    U+FFFD. *)
Lemma Encode_not_injective :
  range_runes [0xFF] = range_runes [0xFE] /\ range_runes [0xFF] = [0xFFFD].
Proof. vm_compute. split; reflexivity. Qed.

(* ===================================================================== *)
(** ** Edge cases *)
(* ===================================================================== *)

(** Codes without bits leave the vector and the bit count as they are. *)
Lemma encode_loop_zero (t : Table) s :
  (forall r c, t !! r = Some c -> Size c = 0 /\ Bits c = 0) -> covered t s ->
  encode_loop t s [0] 0 = Ok ([0], 0).
Proof.
  intros Hz Hcov. induction Hcov as [|r s [c Hc] _ IH]; [done|].
  simpl. rewrite Hc. destruct (Hz r c Hc) as [Hs Hb].
  assert (encode_step c [0] 0 = ([0], 0)) as ->; [|exact IH].
  unfold encode_step. rewrite Hs, Hb. vm_compute. reflexivity.
Qed.

(** X25: a table built from a single symbol gives it the code of length
    0, so every string of that symbol, however long, is encoded as the one
    word 0 with the bit count 0, which [Decode] turns into the empty
    string. *)
Theorem BuildTable_single_symbol (freq : gmap Z float) (s : list Z) :
  size freq = 1%nat -> Forall (fun r => is_Some (freq !! r)) s ->
  Encode (BuildTable freq) s = Ok ([0], 0) /\
  Decode (BuildTable freq) [0] 0 = Some ([], None).
Proof.
  intros Hn Hs. split; [|done].
  unfold Encode. destruct (decide _) as [Hz|_].
  { rewrite BuildTable_size in Hz. lia. }
  apply encode_loop_zero.
  - intros r c Hc.
    pose proof (BuildTable_sizes freq r c Hc) as [HL _].
    assert (bits_fit (BuildTable freq) = true) as Hfit.
    { apply any_order_bits_fit; [apply fresh_new_codes|].
      apply BuildTable_sizes_in. lia. }
    pose proof (bits_fit_spec _ _ _ Hfit Hc) as HB.
    assert (Size c = 0) as Hs0 by lia. rewrite Hs0 in HB. simpl in HB. lia.
  - eapply Forall_impl; [exact Hs|]. intros r Hr. by apply BuildTable_is_Some.
Qed.

Lemma BuildTable_single_symbol_witness :
  Encode (BuildTable freq1) [97; 97; 97] = Ok ([0], 0) /\
  Decode (BuildTable freq1) [0] 0 = Some ([], None).
Proof.
  apply (BuildTable_single_symbol freq1 [97; 97; 97]).
  - vm_compute. reflexivity.
  - apply (bool_decide_unpack _). vm_compute. exact I.
Defined.

(** X26: [Decode] does not check the sign of the bit count: with a count
    of 0 or less and a vector that is not empty it returns the empty string
    and no error, whatever the table and the vector hold. *)
Theorem Decode_nonpositive_size (t : Table) (bitVec : list Z) (size : Z) :
  size <= 0 -> bitVec ≠ [] -> Decode t bitVec size = Some ([], None).
Proof.
  intros Hsize Hne. unfold Decode.
  destruct bitVec as [|v rest]; [done|].
  destruct (Z.leb_spec (Z.of_nat (length (v :: rest))) (Z.quot size 32)) as [Hle|_].
  { simpl length in Hle. Z.to_euclidean_division_equations. lia. }
  unfold decode_run. replace (Z.to_nat size) with 0%nat by lia. done.
Qed.

Lemma Decode_nonpositive_size_witness :
  Decode table_a [0x7FFFFFFF] (-40) = Some ([], None).
Proof.
  apply (Decode_nonpositive_size table_a [0x7FFFFFFF] (-40)).
  - lia.
  - discriminate.
Defined.

(** X27: in a table built from at most 33 symbols the bits of every code
    fit in its length: [0 <= Bits < 2^Size]. *)
Theorem BuildTable_bits_fit (freq : gmap Z float) :
  (size freq ≤ 33)%nat -> bits_fit (BuildTable freq) = true.
Proof.
  intros Hn. apply any_order_bits_fit; [apply fresh_new_codes|].
  by apply BuildTable_sizes_in.
Qed.

Lemma BuildTable_bits_fit_witness : bits_fit (BuildTable freq2) = true.
Proof.
  apply (BuildTable_bits_fit freq2). vm_compute. lia.
Defined.
